(** * libroarchive: read-only archive access

    A shallow embedding of [roarchive/roarchive.cpp] (archive facade, whole
    content read, hint matcher) and [roarchive/tarball.cpp] (tar index, tar
    member stream) together with the properties of these functions.

    Conventions of the embedding:
    - [fs::path] is a wrapper of a [std::string]; it is modelled as [string]
      and [path.string()] is the identity;
    - a C++ exception is a value of [exception]; a function that may throw
      returns a [result];
    - [std::size_t] is a 64-bit unsigned integer, modelled in [Z] with its
      wrap-around written out;
    - [std::map<std::string, Filedes>] is a [gmap string Filedes];
    - the functions of Boost.Filesystem and libutility that the sources call,
      and the sibling backends, are collected in the interfaces [PathLib],
      [TarLib] and [Host]; the theorems hold for every implementation of
      them. *)

From Stdlib Require Import ZArith String Ascii List Bool Lia.
From stdpp Require Import gmap strings list fin_maps.

Local Open Scope string_scope.
Local Open Scope list_scope.

(** ** Exceptions and results *)

Inductive exception : Type :=
| runtime_error (what : string)   (* std::runtime_error, thrown by LOGTHROW *)
| NotAnArchive (what : string)    (* roarchive::NotAnArchive *)
| ios_failure (what : string).    (* std::ios_base::failure of a stream *)

Inductive result (A : Type) : Type :=
| Ok (a : A)
| Throw (e : exception).

Arguments Ok {A} a.
Arguments Throw {A} e.

Definition bind {A B : Type} (r : result A) (k : A -> result B) : result B :=
  match r with
  | Ok a => k a
  | Throw e => Throw e
  end.

Notation "'try!' x <- r ; k" := (bind r (fun x => k))
  (at level 10, x name, r at level 100, k at level 200).

Definition is_Ok {A : Type} (r : result A) : Prop := exists a, r = Ok a.

Definition opt_of {A : Type} (r : result A) : option A :=
  match r with
  | Ok a => Some a
  | Throw _ => None
  end.

(** The double quote character, as a one-character string. *)
Definition dquote : string := String (ascii_of_nat 34) EmptyString.

(** ** Path functions used by the sources

    [filename] and [parent_path] are the members of [boost::filesystem::path];
    [isPathPrefix] and [cutPathPrefix] come from libutility's
    [utility/path.hpp]; [path_ostream] is the text that [os << path] writes
    for a [fs::path] (Boost writes it quoted). *)

Class PathLib : Type := {
  filename : string -> string;
  parent_path : string -> string;
  isPathPrefix : string -> string -> bool;
  cutPathPrefix : string -> string -> string;
  path_ostream : string -> string
}.

(** ** The tar reader's data ([utility/tar.hpp], [utility/substream.hpp]) *)

Definition size_t_modulus : Z := Z.shiftl 1 64.

Definition wrap_size_t (z : Z) : Z := z mod size_t_modulus.

(** [utility::tar::Reader::File]: the member's path, the offset of its
    first byte and [end()], the offset one past its last byte. *)
Record File : Type := {
  file_path : string;
  file_start : Z;
  file_end : Z
}.

(** [utility::io::SubStreamDevice::Filedes]. *)
Record Filedes : Type := {
  fd : Z;
  start : Z;
  end_ : Z
}.

(** What [TarIndex] asks of a [utility::tar::Reader]. *)
Record Reader : Type := {
  reader_path : string;
  reader_files : list File;
  reader_filedes : Z
}.

(** ** tarball.cpp *)

(** [TarIStream]: only the members that the constructor computes are kept;
    [tar_buffer_size] is the argument of [pubsetbuf]. *)
Record TarIStream : Type := {
  tar_path_ : string;
  tar_size_ : Z;
  tar_buffer_size : Z;
  tar_device : Filedes
}.

Record TarIndex : Type := {
  path_ : string;
  index_ : gmap string Filedes
}.

(** [Tarball]: [Detail(path)], [reader_(path)], [index_(reader_, hint)]. *)
Record Tarball : Type := {
  detail_path : string;
  reader_ : Reader;
  tarball_index_ : TarIndex
}.

(** [utility::tar::Reader(path)]: opening the archive reads its headers
    and may throw. *)
Class TarLib : Type := {
  tar_Reader : string -> result Reader
}.

Section Tarball.
Context `{PL : PathLib} `{TL : TarLib}.

Definition TarIStream_new (path : string) (d : Filedes) : TarIStream :=
  {| tar_path_ := path;
     tar_size_ := wrap_size_t (end_ d - start d);
     tar_buffer_size := Z.shiftl 1 16;
     tar_device := d |}.

(** [virtual boost::optional<std::size_t> size() const { return size_; }] *)
Definition TarIStream_size (s : TarIStream) : option Z := Some (tar_size_ s).

Definition findPrefix_message (path hint : string) : string :=
  "No " +:+ dquote +:+ hint +:+ dquote
    +:+ " found in the tarball archive at " +:+ path_ostream path +:+ ".".

(** [file.path.filename() == hint] compares the file name with the path
    made of the hint string; it is the equality of the two strings. *)
Fixpoint findPrefix (path hint : string) (files : list File) : result string :=
  match files with
  | [] => Throw (runtime_error (findPrefix_message path hint))
  | file :: rest =>
      if String.eqb (filename (file_path file)) hint
      then Ok (parent_path (file_path file))
      else findPrefix path hint rest
  end.

(** [std::map::insert]: the map is left alone when the key is present. *)
Definition map_insert (k : string) (v : Filedes) (m : gmap string Filedes)
  : gmap string Filedes :=
  match m !! k with
  | Some _ => m
  | None => <[k := v]> m
  end.

(** The loop of the constructor, started on the index built so far. *)
Fixpoint TarIndex_loop (prefix : string) (d : Z) (files : list File)
    (index : gmap string Filedes) : gmap string Filedes :=
  match files with
  | [] => index
  | file :: rest =>
      if negb (isPathPrefix (file_path file) prefix)
      then TarIndex_loop prefix d rest index
      else
        let path := cutPathPrefix (file_path file) prefix in
        TarIndex_loop prefix d rest
          (map_insert path
             {| fd := d; start := file_start file; end_ := file_end file |}
             index)
  end.

(** [hint ? findPrefix(path_, *hint, files) : fs::path()] *)
Definition TarIndex_prefix (path : string) (hint : option string)
    (files : list File) : result string :=
  match hint with
  | Some h => findPrefix path h files
  | None => Ok ""
  end.

Definition TarIndex_new (reader : Reader) (hint : option string)
  : result TarIndex :=
  let path := reader_path reader in
  let files := reader_files reader in
  try! prefix <- TarIndex_prefix path hint files;
  let d := reader_filedes reader in
  Ok {| path_ := path; index_ := TarIndex_loop prefix d files ∅ |}.

Definition file_message (t : TarIndex) (path : string) : string :=
  "File " +:+ dquote +:+ path +:+ dquote
    +:+ " not found in the archive at " +:+ path_ostream (path_ t) +:+ ".".

(** [TarIndex::file] *)
Definition TarIndex_file (t : TarIndex) (path : string) : result Filedes :=
  match index_ t !! path with
  | None => Throw (runtime_error (file_message t path))
  | Some d => Ok d
  end.

Definition Tarball_new (path : string) (hint : option string)
  : result Tarball :=
  try! reader <- tar_Reader path;
  try! index <- TarIndex_new reader hint;
  Ok {| detail_path := path; reader_ := reader; tarball_index_ := index |}.

Definition Tarball_istream (t : Tarball) (path : string) : result TarIStream :=
  try! d <- TarIndex_file (tarball_index_ t) path;
  Ok (TarIStream_new path d).

End Tarball.

(** Modelled from the spec: the [list] and [exists] members of the tar
    backend are not part of tarball.cpp.  Section 3 of the specification has
    the tarball backend answer a listing from its fixed index, and section 7
    has [exists] answer a missing member with [false].  The listing is
    compared as a set of paths; its order is not modelled. *)
Definition Tarball_list (t : Tarball) : list string :=
  (map_to_list (index_ (tarball_index_ t))).*1.

Definition Tarball_exists (t : Tarball) (path : string) : bool :=
  bool_decide (is_Some (index_ (tarball_index_ t) !! path)).

(** ** roarchive.cpp: options and the hint *)

(** Modelled from the spec: roarchive.hpp is not part of the sources.  A hint
    is the ordered list of candidate file names, most preferred first, and a
    hint given as one string is the list of that one candidate. *)
Record FileHint : Type := {
  hint_ : list string
}.

Definition FileHint_of_string (s : string) : FileHint := {| hint_ := [s] |}.

(** [OpenOptions]; [inlineHint] is a [char], the zero character when no
    marker is configured. *)
Record OpenOptions : Type := {
  mime : string;
  inlineHint : ascii;
  hint : FileHint;
  fileLimit : Z
}.

Definition setMime (o : OpenOptions) (m : string) : OpenOptions :=
  {| mime := m; inlineHint := inlineHint o; hint := hint o;
     fileLimit := fileLimit o |}.

Definition setHint (o : OpenOptions) (h : FileHint) : OpenOptions :=
  {| mime := mime o; inlineHint := inlineHint o; hint := h;
     fileLimit := fileLimit o |}.

(** [std::string::find(char)]; [None] is [npos]. *)
Fixpoint string_find (str : string) (c : ascii) : option nat :=
  match str with
  | EmptyString => None
  | String a rest =>
      if Ascii.eqb a c then Some 0%nat else S <$> string_find rest c
  end.

(** [str.substr(pos, n)] and [str.substr(pos)], for [pos <= str.size()]. *)
Definition substr (str : string) (pos n : nat) : string :=
  String.substring pos n str.

Definition substr_from (str : string) (pos : nat) : string :=
  String.substring pos (String.length str - pos) str.

(** The inline hint block at the head of [RoArchive::factory]: the path and
    the options after it. *)
Definition split_inline_hint (path : string) (openOptions : OpenOptions)
  : string * OpenOptions :=
  if negb (Ascii.eqb (inlineHint openOptions) Ascii.zero) then
    let str := path in
    match string_find str (inlineHint openOptions) with
    | Some split =>
        (substr str 0 split,
         setHint openOptions (FileHint_of_string (substr_from str (split + 1))))
    | None => (path, openOptions)
    end
  else (path, openOptions).

(** ** roarchive.cpp: the factory

    What the factory calls outside roarchive.cpp and tarball.cpp:
    [utility::Uri(s).scheme()] ([Throw] when parsing throws),
    [utility::Magic().mime(path)], the constructors of the directory, zip and
    http backends, the upcast of a [Tarball] to a [RoArchive::dpointer], the
    anchor that the tarball backend takes from the options, and
    [Detail::directio]. *)
Class Host : Type := {
  ROARCHIVE_HAS_HTTP : bool;
  Uri_scheme : string -> result string;
  Magic_mime : string -> result string;
  Detail : Type;
  directory : string -> OpenOptions -> result Detail;
  zip : string -> OpenOptions -> result Detail;
  http : string -> OpenOptions -> result Detail;
  make_shared_Tarball : Tarball -> Detail;
  tarball_hint : OpenOptions -> option string;
  directio : Detail -> bool
}.

Section Facade.
Context `{PL : PathLib} `{TL : TarLib} `{HO : Host}.

(** [RoArchive::tarball] *)
Definition tarball (path : string) (openOptions : OpenOptions)
  : result Detail :=
  try! t <- Tarball_new path (tarball_hint openOptions);
  Ok (make_shared_Tarball t).

(** The [try { ... } catch (...) { }] block: the options after it. *)
Definition detect_url (path : string) (openOptions : OpenOptions)
  : OpenOptions :=
  if String.eqb (mime openOptions) "" then
    match Uri_scheme path with
    | Ok scheme =>
        if String.eqb scheme "http" || String.eqb scheme "https"
        then setMime openOptions "http"
        else openOptions
    | Throw _ => openOptions
    end
  else openOptions.

(** [const auto magic(...)] *)
Definition detect_magic (path : string) (openOptions : OpenOptions)
  : result string :=
  if String.eqb (mime openOptions) "" then Magic_mime path
  else Ok (mime openOptions).

Definition unsupported_message (magic : string) : string :=
  "Unsupported archive type <" +:+ magic +:+ ">.".

Definition dispatch (magic path : string) (openOptions : OpenOptions)
  : result Detail :=
  if String.eqb magic "inode/directory" then directory path openOptions
  else if String.eqb magic "application/x-tar" then tarball path openOptions
  else if String.eqb magic "application/zip" then zip path openOptions
  else if ROARCHIVE_HAS_HTTP && String.eqb magic "http"
       then http path openOptions
  else Throw (NotAnArchive (unsupported_message magic)).

Definition factory (path : string) (openOptions : OpenOptions)
  : result Detail :=
  let '(path, openOptions) := split_inline_hint path openOptions in
  let openOptions := detect_url path openOptions in
  try! magic <- detect_magic path openOptions;
  dispatch magic path openOptions.

(** The type token the factory resolves for a path: the value of [magic]. *)
Definition resolved_type (path : string) (openOptions : OpenOptions)
  : result string :=
  let '(path, openOptions) := split_inline_hint path openOptions in
  detect_magic path (detect_url path openOptions).

Record RoArchive : Type := {
  detail_ : Detail;
  directio_ : bool
}.

(** [RoArchive::RoArchive(path, openOptions)] *)
Definition RoArchive_new (path : string) (openOptions : OpenOptions)
  : result RoArchive :=
  try! d <- factory path openOptions;
  Ok {| detail_ := d; directio_ := directio d |}.

End Facade.

(** ** roarchive.cpp: [IStream::read]

    The [std::istream] behind an [IStream] is a byte source with a read
    position.  [calls] records the stream operations performed, oldest
    first, so that the strategy taken by [read] can be observed. *)

Inductive stream_call : Type :=
| call_read (n : nat)      (* utility::binaryio::read(s, data, n) *)
| call_seekg_end           (* s.seekg(0, std::ios_base::end) *)
| call_tellg               (* s.tellg() *)
| call_seekg (pos : nat)   (* s.seekg(pos) *)
| call_copy.               (* bio::copy(s, os) *)

Record IStream : Type := {
  source : list Byte.byte;
  gpos : nat;
  calls : list stream_call;
  size_ : option nat;
  seekable_ : bool
}.

Definition with_stream (s : IStream) (pos : nat) (c : stream_call) : IStream :=
  {| source := source s; gpos := pos; calls := calls s ++ [c];
     size_ := size_ s; seekable_ := seekable_ s |}.

(** [utility::binaryio::read]: exactly [n] bytes, or the stream, which has
    [failbit] among its exceptions, throws. *)
Definition binaryio_read (s : IStream) (n : nat)
  : result (list Byte.byte * IStream) :=
  if (gpos s + n <=? length (source s))%nat
  then Ok (take n (drop (gpos s) (source s)),
           with_stream s (gpos s + n) (call_read n))
  else Throw (ios_failure "basic_ios::clear").

Definition seekg_end (s : IStream) : IStream :=
  with_stream s (length (source s)) call_seekg_end.

Definition tellg (s : IStream) : nat * IStream :=
  (gpos s, with_stream s (gpos s) call_tellg).

Definition seekg (s : IStream) (pos : nat) : IStream :=
  with_stream s pos (call_seekg pos).

(** [bio::copy(s, os)]: everything from the read position to the end of
    the source, read through the stream buffer. *)
Definition bio_copy (s : IStream) : list Byte.byte * IStream :=
  (drop (gpos s) (source s), with_stream s (length (source s)) call_copy).

Definition IStream_read (s : IStream) : result (list Byte.byte * IStream) :=
  match size_ s with
  | Some size =>
      (* we know the size of the file *)
      binaryio_read s size
  | None =>
      if seekable_ s then
        (* we can measure the file *)
        let '(size, s) := tellg (seekg_end s) in
        let s := seekg s 0 in
        binaryio_read s size
      else
        (* we need to use the old way *)
        Ok (bio_copy s)
  end.

(** A stream just opened on a member with the given bytes. *)
Definition IStream_open (bytes : list Byte.byte) (size : option nat)
    (seekable : bool) : IStream :=
  {| source := bytes; gpos := 0; calls := []; size_ := size;
     seekable_ := seekable |}.


(** [void copy(const IStream::pointer &in, std::ostream &out)]: the output
    stream is the sequence of bytes written to it so far. *)
Definition copy (s : IStream) (out : list Byte.byte)
  : IStream * list Byte.byte :=
  let '(bytes, s) := bio_copy s in
  (s, out ++ bytes).

(** ** roarchive.cpp: [FileHint::Matcher] *)

Record Matcher : Type := {
  m_hint_ : list string;
  bestIndex_ : nat;
  bestMatch_ : string
}.

(** Modelled from the spec: the constructor is declared in roarchive.hpp,
    which is not part of the sources.  [bestIndex] starts at the length of
    the candidate list and [bestMatch] starts empty. *)
Definition Matcher_new (h : FileHint) : Matcher :=
  {| m_hint_ := hint_ h; bestIndex_ := length (hint_ h); bestMatch_ := "" |}.

Section Matcher.
Context `{PL : PathLib}.

(** The [for] loop of [operator()], with [n] iterations left from [index]
    on: the index of the first candidate equal to [fname], if any.  Reading
    [hint_[index]] past the end of the vector is undefined in C++; it never
    happens when [bestIndex_ <= hint_.size()] and counts as no match here. *)
Fixpoint Matcher_loop (hint : list string) (fname : string)
    (index n : nat) : option nat :=
  match n with
  | O => None
  | S n' =>
      match hint !! index with
      | Some candidate =>
          if String.eqb fname candidate then Some index
          else Matcher_loop hint fname (S index) n'
      | None => Matcher_loop hint fname (S index) n'
      end
  end.

(** [bool FileHint::Matcher::operator()(const fs::path &path)] *)
Definition Matcher_call (m : Matcher) (path : string) : Matcher * bool :=
  let fname := filename path in
  let m' :=
    match Matcher_loop (m_hint_ m) fname 0 (bestIndex_ m) with
    | Some index =>
        {| m_hint_ := m_hint_ m; bestIndex_ := index; bestMatch_ := path |}
    | None => m
    end in
  (m', Nat.eqb (bestIndex_ m') 0).

(** Feeding a sequence of observed paths, one call each. *)
Definition Matcher_feed (m : Matcher) (paths : list string) : Matcher :=
  foldl (fun m path => fst (Matcher_call m path)) m paths.

End Matcher.

(** ** A reference implementation of the path functions

    Relative paths whose components are separated by single slashes, as the
    member paths of a tar archive are.  [elements] is the sequence a
    [fs::path] iterates over, [isPathPrefix] and [cutPathPrefix] compare and
    drop leading elements, and [quoted] is Boost's quoted output with [&] as
    the escape character.  The general theorems below hold for every
    [PathLib]; this instance serves to run them on concrete archives. *)
Module RelPath.

Fixpoint split (cur s : string) : list string :=
  match s with
  | EmptyString => if String.eqb cur "" then [] else [cur]
  | String c rest =>
      if Ascii.eqb c "/"
      then (if String.eqb cur "" then [] else [cur]) ++ split "" rest
      else split (cur +:+ String c EmptyString) rest
  end.

Definition elements (p : string) : list string := split "" p.

Definition join (l : list string) : string := String.concat "/" l.

Definition filename (p : string) : string := List.last (elements p) "".

Definition parent_path (p : string) : string :=
  join (List.removelast (elements p)).

Fixpoint starts_with (prefix l : list string) : bool :=
  match prefix, l with
  | [], _ => true
  | _ :: _, [] => false
  | a :: prefix', b :: l' => String.eqb a b && starts_with prefix' l'
  end.

Definition isPathPrefix (path prefix : string) : bool :=
  starts_with (elements prefix) (elements path).

Definition cutPathPrefix (path prefix : string) : string :=
  join (drop (length (elements prefix)) (elements path)).

Fixpoint escape (s : string) : string :=
  match s with
  | EmptyString => EmptyString
  | String c rest =>
      if Ascii.eqb c "&" || Ascii.eqb c (ascii_of_nat 34)
      then String "&" (String c (escape rest))
      else String c (escape rest)
  end.

Definition quoted (p : string) : string := dquote +:+ escape p +:+ dquote.

End RelPath.

#[global] Instance relative_paths : PathLib := {|
  filename := RelPath.filename;
  parent_path := RelPath.parent_path;
  isPathPrefix := RelPath.isPathPrefix;
  cutPathPrefix := RelPath.cutPathPrefix;
  path_ostream := RelPath.quoted
|}.

(** ** A reference host

    One archive file whose tar reader yields the given member list, a
    content sniffer that answers [sniffed] for every path, no URI support
    and no sibling backends: their constructors throw. *)
Definition fixed_tar (files : list File) : TarLib := {|
  tar_Reader := fun path =>
    Ok {| reader_path := path; reader_files := files; reader_filedes := 3 |}
|}.

Definition fixed_host (sniffed : string) : Host := {|
  ROARCHIVE_HAS_HTTP := false;
  Uri_scheme := fun _ => Throw (runtime_error "not a uri");
  Magic_mime := fun _ => Ok sniffed;
  Detail := Tarball;
  directory := fun _ _ => Throw (runtime_error "no directory backend");
  zip := fun _ _ => Throw (runtime_error "no zip backend");
  http := fun _ _ => Throw (runtime_error "no http backend");
  make_shared_Tarball := fun t => t;
  tarball_hint := fun o => head (hint_ (hint o));
  directio := fun _ => false
|}.

(** A host whose URI parser finds the given scheme in every string, whose
    content sniffer fails, and whose http backend, when compiled in, throws
    a connection error. *)
Definition url_host (scheme : string) (has_http : bool) : Host := {|
  ROARCHIVE_HAS_HTTP := has_http;
  Uri_scheme := fun _ => Ok scheme;
  Magic_mime := fun _ => Throw (runtime_error "cannot open");
  Detail := Tarball;
  directory := fun _ _ => Throw (runtime_error "no directory backend");
  zip := fun _ _ => Throw (runtime_error "no zip backend");
  http := fun _ _ => Throw (runtime_error "cannot connect");
  make_shared_Tarball := fun t => t;
  tarball_hint := fun o => head (hint_ (hint o));
  directio := fun _ => false
|}.

Definition default_options : OpenOptions :=
  {| mime := ""; inlineHint := Ascii.zero; hint := {| hint_ := [] |};
     fileLimit := 0 |}.

Definition member (p : string) (s e : Z) : File :=
  {| file_path := p; file_start := s; file_end := e |}.

(** The archive of the specification's example: members [dir/a] and
    [dir/b]; and the same archive with [dir/a] appended a second time. *)
Definition dir_ab : Reader :=
  {| reader_path := "x.tar";
     reader_files := [member "dir/a" 512 1000; member "dir/b" 1536 1600];
     reader_filedes := 3 |}.

Definition dir_aba : Reader :=
  {| reader_path := "x.tar";
     reader_files := [member "dir/a" 512 1000; member "dir/b" 1536 1600;
                      member "dir/a" 2048 2100];
     reader_filedes := 3 |}.

(** An archive with a member outside the directory of the anchor. *)
Definition dir_ab_other : Reader :=
  {| reader_path := "x.tar";
     reader_files := [member "other/c" 512 600; member "dir/a" 1024 1100;
                      member "dir/b" 1536 1600];
     reader_filedes := 3 |}.

(** ** Vocabulary of the tar index properties *)

Section TarVocabulary.
Context `{PL : PathLib}.

(** The member's path lies under the prefix. *)
Definition under (prefix : string) (f : File) : Prop :=
  isPathPrefix (file_path f) prefix = true.

(** The member's path with the prefix stripped. *)
Definition relative (prefix : string) (f : File) : string :=
  cutPathPrefix (file_path f) prefix.

(** The byte range descriptor of a member on the shared handle [d]. *)
Definition descriptor (d : Z) (f : File) : Filedes :=
  {| fd := d; start := file_start f; end_ := file_end f |}.

(** The prefix that a hint resolves to: empty without a hint, otherwise the
    parent directory of the first member whose file name is the anchor. *)
Definition resolved_prefix (hint : option string) (files : list File)
    (prefix : string) : Prop :=
  match hint with
  | None => prefix = ""
  | Some h =>
      exists before anchor after,
        files = before ++ anchor :: after
        /\ filename (file_path anchor) = h
        /\ (forall g, g ∈ before -> filename (file_path g) <> h)
        /\ prefix = parent_path (file_path anchor)
  end.

(** The members whose path lies under the prefix, in archive order. *)
Definition members_under (prefix : string) (files : list File) : list File :=
  List.filter (fun f => isPathPrefix (file_path f) prefix) files.

(** Inserting, member by member, the stripped path mapped to the member's
    descriptor. *)
Definition insert_members (prefix : string) (d : Z) (members : list File)
    (index : gmap string Filedes) : gmap string Filedes :=
  foldl (fun index f => map_insert (relative prefix f) (descriptor d f) index)
        index members.

(** The hint can be resolved: there is none, or some member has the anchor
    as its file name. *)
Definition anchored (hint : option string) (files : list File) : Prop :=
  match hint with
  | None => True
  | Some h => exists f, f ∈ files /\ filename (file_path f) = h
  end.

(** The test that selects the members stored under [key]. *)
Definition stored_under (prefix key : string) (f : File) : bool :=
  isPathPrefix (file_path f) prefix
  && String.eqb (cutPathPrefix (file_path f) prefix) key.

End TarVocabulary.

(** * Properties *)

(** ** The tar index *)

Section TarIndexFacts.
Context `{PL : PathLib}.

Lemma stored_under_true prefix key f :
  stored_under prefix key f = true <-> under prefix f /\ relative prefix f = key.
Proof.
  unfold stored_under, under, relative.
  rewrite andb_true_iff, String.eqb_eq. tauto.
Qed.

Lemma map_insert_lookup k v (m : gmap string Filedes) key :
  map_insert k v m !! key =
  match m !! key with
  | Some w => Some w
  | None => if String.eqb k key then Some v else None
  end.
Proof.
  unfold map_insert. destruct (String.eqb_spec k key) as [->|Hne].
  - destruct (m !! key) eqn:E; rewrite ?E; [done|]. by rewrite lookup_insert_eq.
  - destruct (m !! k) eqn:E; [by destruct (m !! key)|].
    rewrite lookup_insert_ne by done. by destruct (m !! key).
Qed.

(** The index after the loop, key by key: an entry present before the loop
    stays, and a fresh key receives the descriptor of the first member that
    lies under the prefix and strips to that key. *)
Lemma TarIndex_loop_lookup prefix d files (index : gmap string Filedes) key :
  TarIndex_loop prefix d files index !! key =
  match index !! key with
  | Some w => Some w
  | None => descriptor d <$> List.find (stored_under prefix key) files
  end.
Proof.
  revert index. induction files as [|f files IH]; intros index; simpl.
  - by destruct (index !! key).
  - unfold stored_under at 1.
    destruct (isPathPrefix (file_path f) prefix) eqn:Hp; simpl.
    + rewrite IH, map_insert_lookup.
      destruct (index !! key); [done|].
      by destruct (String.eqb _ key).
    + apply IH.
Qed.

(** The loop performs one insertion for each member under the prefix and
    none for the others. *)
Lemma TarIndex_loop_insert_members prefix d files
    (index : gmap string Filedes) :
  TarIndex_loop prefix d files index
  = insert_members prefix d (members_under prefix files) index.
Proof.
  revert index. induction files as [|f files IH]; intros index; simpl;
    [done|].
  destruct (isPathPrefix (file_path f) prefix); simpl; apply IH.
Qed.

Lemma find_first {A} (p : A -> bool) before x after :
  (forall y, y ∈ before -> p y = false) -> p x = true ->
  List.find p (before ++ x :: after) = Some x.
Proof.
  intros Hb Hx. induction before as [|y before IH]; simpl.
  - by rewrite Hx.
  - rewrite (Hb y) by apply list_elem_of_here.
    apply IH. intros z Hz. apply Hb. by apply list_elem_of_further.
Qed.

Lemma find_is_Some {A} (p : A -> bool) l :
  is_Some (List.find p l) <-> exists x, x ∈ l /\ p x = true.
Proof.
  split.
  - intros [x Hx]. apply find_some in Hx as [Hin Hp].
    exists x. by rewrite list_elem_of_In.
  - intros (x & Hin & Hp). destruct (List.find p l) eqn:E; [by eexists|].
    apply list_elem_of_In in Hin.
    by rewrite (find_none _ _ E x Hin) in Hp.
Qed.

Lemma findPrefix_Ok path h files prefix :
  findPrefix path h files = Ok prefix -> resolved_prefix (Some h) files prefix.
Proof.
  induction files as [|f files IH]; simpl; [done|].
  destruct (String.eqb_spec (filename (file_path f)) h) as [Heq|Hne].
  - intros [= <-]. exists [], f, files. split_and!; try done.
    intros g Hg. by apply not_elem_of_nil in Hg.
  - intros H. destruct (IH H) as (before & a & after & -> & Ha & Hb & ->).
    exists (f :: before), a, after. split_and!; try done.
    intros g [->|Hg]%elem_of_cons; auto.
Qed.

Lemma findPrefix_found path h before anchor after :
  filename (file_path anchor) = h ->
  (forall g, g ∈ before -> filename (file_path g) <> h) ->
  findPrefix path h (before ++ anchor :: after)
  = Ok (parent_path (file_path anchor)).
Proof.
  intros Ha Hb. induction before as [|g before IH]; simpl.
  - by rewrite <- Ha, String.eqb_refl.
  - destruct (String.eqb_spec (filename (file_path g)) h) as [Heq|_].
    + exfalso. apply (Hb g); [apply list_elem_of_here | done].
    + apply IH. intros z Hz. apply Hb. by apply list_elem_of_further.
Qed.

Lemma findPrefix_missing path h files :
  (forall f, f ∈ files -> filename (file_path f) <> h) ->
  findPrefix path h files = Throw (runtime_error (findPrefix_message path h)).
Proof.
  intros Hno. induction files as [|f files IH]; simpl; [done|].
  destruct (String.eqb_spec (filename (file_path f)) h) as [Heq|_].
  - exfalso. apply (Hno f); [apply list_elem_of_here | done].
  - apply IH. intros g Hg. apply Hno. by apply list_elem_of_further.
Qed.

Lemma findPrefix_total path h files :
  (exists f, f ∈ files /\ filename (file_path f) = h) ->
  exists prefix, findPrefix path h files = Ok prefix.
Proof.
  intros (f & Hin & Hf). induction files as [|g files IH]; simpl.
  - by apply not_elem_of_nil in Hin.
  - destruct (String.eqb_spec (filename (file_path g)) h) as [_|Hne];
      [by eexists|].
    apply IH. apply elem_of_cons in Hin as [->|Hin]; [done|exact Hin].
Qed.

Lemma TarIndex_prefix_total path hint files :
  anchored hint files ->
  exists prefix, TarIndex_prefix path hint files = Ok prefix.
Proof.
  destruct hint as [h|]; simpl; [apply findPrefix_total | by eexists].
Qed.

Lemma TarIndex_prefix_Ok path hint files prefix :
  TarIndex_prefix path hint files = Ok prefix ->
  resolved_prefix hint files prefix.
Proof.
  destruct hint as [h|]; simpl.
  - apply findPrefix_Ok.
  - by intros [= <-].
Qed.

Lemma TarIndex_new_Ok reader hint prefix :
  TarIndex_prefix (reader_path reader) hint (reader_files reader) = Ok prefix ->
  TarIndex_new reader hint
  = Ok {| path_ := reader_path reader;
          index_ := TarIndex_loop prefix (reader_filedes reader)
                      (reader_files reader) ∅ |}.
Proof. intros Hprefix. unfold TarIndex_new. by rewrite Hprefix. Qed.

End TarIndexFacts.

Section TarIndexClaims.
Context `{PL : PathLib}.

Lemma Tarball_list_elem (tb : Tarball) key :
  key ∈ Tarball_list tb <-> is_Some (index_ (tarball_index_ tb) !! key).
Proof.
  unfold Tarball_list. rewrite list_elem_of_fmap. split.
  - intros ([k v] & -> & Hkv). apply elem_of_map_to_list in Hkv. by eexists.
  - intros [v Hv]. exists (key, v). split; [done|].
    by apply elem_of_map_to_list.
Qed.

Lemma Tarball_exists_true (tb : Tarball) key :
  Tarball_exists tb key = true <-> is_Some (index_ (tarball_index_ tb) !! key).
Proof. unfold Tarball_exists. by rewrite bool_decide_eq_true. Qed.

Lemma index_key_present prefix d files key :
  is_Some (TarIndex_loop prefix d files ∅ !! key) <->
  exists f, f ∈ files /\ under prefix f /\ relative prefix f = key.
Proof.
  rewrite TarIndex_loop_lookup, lookup_empty, fmap_is_Some, find_is_Some.
  by setoid_rewrite stored_under_true.
Qed.

(** C1.  Take a reader's member list and an optional hint anchor that some
    member carries as its file name.  The construction of the tar index
    succeeds; it resolves a prefix (empty without a hint, the parent
    directory of the first member named as the anchor otherwise) and the
    index is what results from inserting, for exactly the members under the
    prefix and in archive order, the stripped path mapped to the member's
    descriptor.  Hence: the keys of the index are exactly the stripped paths
    of the members under the prefix; every entry is the descriptor (shared handle, start,
    end) of a member under the prefix that strips to its key; every member
    under the prefix has its stripped path mapped to its own descriptor,
    unless an earlier member already took that key ([std::map::insert]
    keeps the first); a listing made of the index keys and an existence test
    on the index therefore show exactly these paths and nothing of the
    members outside the prefix. *)
Theorem tar_index_members (reader : Reader) (hint : option string) :
  let files := reader_files reader in
  let d := reader_filedes reader in
  anchored hint files ->
  exists t prefix,
    TarIndex_new reader hint = Ok t
    /\ path_ t = reader_path reader
    /\ resolved_prefix hint files prefix
    /\ index_ t = insert_members prefix d (members_under prefix files) ∅
    /\ (forall key,
          is_Some (index_ t !! key) <->
          exists f, f ∈ files /\ under prefix f /\ relative prefix f = key)
    /\ (forall key v,
          index_ t !! key = Some v ->
          exists f, f ∈ files /\ under prefix f /\ relative prefix f = key
                    /\ v = descriptor d f)
    /\ (forall before f after,
          files = before ++ f :: after ->
          under prefix f ->
          (forall g, g ∈ before -> under prefix g ->
                     relative prefix g <> relative prefix f) ->
          index_ t !! relative prefix f = Some (descriptor d f))
    /\ (forall tb key,
          tarball_index_ tb = t ->
          (key ∈ Tarball_list tb <->
           exists f, f ∈ files /\ under prefix f /\ relative prefix f = key)
          /\ (Tarball_exists tb key = true <->
              exists f, f ∈ files /\ under prefix f
                        /\ relative prefix f = key)).
Proof.
  intros files d Hanchor.
  destruct (TarIndex_prefix_total (reader_path reader) _ _ Hanchor)
    as [prefix Hprefix].
  eexists. exists prefix.
  split; [by apply TarIndex_new_Ok|]. simpl. fold files d. split_and!.
  - done.
  - by apply (TarIndex_prefix_Ok (reader_path reader)).
  - apply TarIndex_loop_insert_members.
  - intros key. apply index_key_present.
  - intros key v. rewrite TarIndex_loop_lookup, lookup_empty.
    destruct (List.find _ files) as [f|] eqn:E; simpl; [|done].
    intros [= <-]. apply find_some in E as [Hin Hst].
    apply stored_under_true in Hst as [Hu Hr].
    exists f. by rewrite list_elem_of_In.
  - intros before f after Hfiles Hu Hfirst.
    rewrite TarIndex_loop_lookup, lookup_empty, Hfiles.
    rewrite (find_first _ before f after); [done| |].
    + intros g Hg. apply not_true_is_false. intros Hst.
      apply stored_under_true in Hst as [Hgu Hgr]. by apply (Hfirst g).
    + by apply stored_under_true.
  - intros tb key Htb.
    rewrite Tarball_list_elem, Tarball_exists_true, Htb. simpl.
    split; apply index_key_present.
Qed.

(** C9.  Let the hint resolve to a prefix.  When a member [g] under the
    prefix strips to the same relative path as a member [f] that comes
    before it in the member list, and no member before [f] strips to that
    path, the index is built and maps the path to the byte range of [f]:
    the later insertion does not overwrite the entry. *)
Theorem tar_index_first_duplicate_wins (reader : Reader)
    (hint : option string) (prefix : string)
    (before between after : list File) (f g : File) :
  TarIndex_prefix (reader_path reader) hint (reader_files reader) = Ok prefix ->
  reader_files reader = before ++ f :: between ++ g :: after ->
  under prefix f -> under prefix g ->
  relative prefix g = relative prefix f ->
  (forall x, x ∈ before -> under prefix x ->
             relative prefix x <> relative prefix f) ->
  exists t,
    TarIndex_new reader hint = Ok t
    /\ index_ t !! relative prefix g
       = Some {| fd := reader_filedes reader;
                 start := file_start f; end_ := file_end f |}.
Proof.
  intros Hprefix Hfiles Hf Hg Hsame Hfirst.
  eexists. split; [by apply TarIndex_new_Ok|]. simpl.
  rewrite Hsame, TarIndex_loop_lookup, lookup_empty, Hfiles.
  rewrite (find_first _ before f (between ++ g :: after)); [done| |].
  - intros x Hx. apply not_true_is_false. intros Hst.
    apply stored_under_true in Hst as [Hxu Hxr]. by apply (Hfirst x).
  - by apply stored_under_true.
Qed.

(** C6.  Looking a member path up in a tar index succeeds exactly when the
    path is, as a string, a key of the index, and then yields the entry
    stored under it; otherwise it throws the runtime error whose message
    reads: File, the requested path in quotes, not found in the archive at,
    the archive path as Boost writes a path, full stop. *)
Theorem tar_index_lookup (t : TarIndex) (path : string) :
  (is_Ok (TarIndex_file t path) <-> path ∈ dom (index_ t))
  /\ (forall d, TarIndex_file t path = Ok d <-> index_ t !! path = Some d)
  /\ (path ∉ dom (index_ t) <->
      TarIndex_file t path =
      Throw (runtime_error
               ("File " +:+ dquote +:+ path +:+ dquote
                +:+ " not found in the archive at "
                +:+ path_ostream (path_ t) +:+ "."))).
Proof.
  unfold TarIndex_file, is_Ok. rewrite not_elem_of_dom, elem_of_dom.
  destruct (index_ t !! path) as [d|] eqn:E.
  - split_and!.
    + split; intros _; by eexists.
    + intros d'. split; congruence.
    + split; intros; done.
  - split_and!.
    + split; [intros [? ?]; done | intros [? ?]; done].
    + intros d'. split; intros; done.
    + split; intros; done.
Qed.

End TarIndexClaims.

(** C8.  For a byte range descriptor with [start < end], both within the
    range of [std::size_t], the tar member stream reports the size
    [end - start], and the buffer it installs has 64 KiB. *)
Theorem tar_stream_size (path : string) (d : Filedes) :
  (0 <= start d)%Z -> (start d < end_ d)%Z -> (end_ d < 2 ^ 64)%Z ->
  TarIStream_size (TarIStream_new path d) = Some (end_ d - start d)%Z
  /\ tar_buffer_size (TarIStream_new path d) = (64 * 1024)%Z.
Proof.
  intros H0 Hlt Hmax. unfold TarIStream_size, TarIStream_new; simpl.
  split; [|reflexivity].
  f_equal. unfold wrap_size_t, size_t_modulus.
  change (Z.shiftl 1 64) with (2 ^ 64)%Z.
  apply Z.mod_small. lia.
Qed.

(** The specification's example archive: with the anchor [a] the index
    lists [a] and [b]; without a hint it lists [dir/a] and [dir/b]. *)
Example tar_index_dir_ab_hint :
  (fun t => dom (index_ t)) <$> opt_of (TarIndex_new dir_ab (Some "a"))
  = Some ({["a"; "b"]} : gset string).
Proof. vm_compute. reflexivity. Qed.

Example tar_index_dir_ab_no_hint :
  (fun t => dom (index_ t)) <$> opt_of (TarIndex_new dir_ab None)
  = Some ({["dir/a"; "dir/b"]} : gset string).
Proof. vm_compute. reflexivity. Qed.

(** A member outside the prefix leaves no trace in the index. *)
Example tar_index_outside_member :
  (fun t => (dom (index_ t), index_ t !! "c", index_ t !! "other/c"))
    <$> opt_of (TarIndex_new dir_ab_other (Some "a"))
  = Some (({["a"; "b"]} : gset string), None, None).
Proof. vm_compute. reflexivity. Qed.

Lemma tar_index_members_witness :
  anchored (Some "a") (reader_files dir_ab)
  /\ exists t prefix,
       TarIndex_new dir_ab (Some "a") = Ok t
       /\ resolved_prefix (Some "a") (reader_files dir_ab) prefix
       /\ forall key,
            is_Some (index_ t !! key) <->
            exists f, f ∈ reader_files dir_ab /\ under prefix f
                      /\ relative prefix f = key.
Proof.
  assert (anchored (Some "a") (reader_files dir_ab)) as Hanchor.
  { exists (member "dir/a" 512 1000). split; [|reflexivity].
    apply list_elem_of_here. }
  split; [exact Hanchor|].
  destruct (tar_index_members dir_ab (Some "a") Hanchor)
    as (t & prefix & Hnew & _ & Hp & _ & Hkeys & _).
  exists t, prefix. split; [exact Hnew|]. split; assumption.
Defined.

Lemma tar_index_first_duplicate_wins_witness :
  TarIndex_prefix (reader_path dir_aba) None (reader_files dir_aba) = Ok ""
  /\ exists t,
       TarIndex_new dir_aba None = Ok t
       /\ index_ t !! "dir/a" = Some {| fd := 3; start := 512; end_ := 1000 |}.
Proof.
  split; [reflexivity|].
  refine (tar_index_first_duplicate_wins dir_aba None
            "" [] [member "dir/b" 1536 1600] []
            (member "dir/a" 512 1000) (member "dir/a" 2048 2100)
            eq_refl eq_refl eq_refl eq_refl eq_refl _).
  intros x Hx. by apply not_elem_of_nil in Hx.
Defined.

(** Lookups in the index of the example archive opened with the anchor
    [a]: the stripped path is found, the same name in another case and the
    path with its prefix are not. *)
Example tar_index_lookup_exact :
  (try! t <- TarIndex_new dir_ab (Some "a"); TarIndex_file t "a")
  = Ok {| fd := 3; start := 512; end_ := 1000 |}
  /\ (try! t <- TarIndex_new dir_ab (Some "a"); TarIndex_file t "A")
     = Throw (runtime_error
                ("File " +:+ dquote +:+ "A" +:+ dquote
                 +:+ " not found in the archive at "
                 +:+ dquote +:+ "x.tar" +:+ dquote +:+ "."))
  /\ (try! t <- TarIndex_new dir_ab (Some "a"); TarIndex_file t "dir/a")
     = Throw (runtime_error
                ("File " +:+ dquote +:+ "dir/a" +:+ dquote
                 +:+ " not found in the archive at "
                 +:+ dquote +:+ "x.tar" +:+ dquote +:+ ".")).
Proof. split_and!; vm_compute; reflexivity. Qed.

(** The stream of member [a] of the example archive knows its size. *)
Example tar_member_stream_size :
  (try! tb <- @Tarball_new relative_paths (fixed_tar (reader_files dir_ab))
                "x.tar" (Some "a");
   try! s <- Tarball_istream tb "a";
   Ok (TarIStream_size s, tar_buffer_size s))
  = Ok (Some 488%Z, 65536%Z).
Proof. vm_compute. reflexivity. Qed.

Lemma tar_stream_size_witness :
  TarIStream_size
    (TarIStream_new "a" {| fd := 3; start := 512; end_ := 1000 |})
  = Some 488%Z
  /\ tar_buffer_size
       (TarIStream_new "a" {| fd := 3; start := 512; end_ := 1000 |})
     = 65536%Z.
Proof.
  apply (tar_stream_size "a" {| fd := 3; start := 512; end_ := 1000 |});
    simpl; lia.
Defined.

(** ** Whole content read *)

Lemma binaryio_read_all (s : IStream) (n : nat) :
  gpos s = 0 -> n = length (source s) ->
  binaryio_read s n = Ok (source s, with_stream s n (call_read n)).
Proof.
  intros Hpos ->. unfold binaryio_read. rewrite Hpos. simpl.
  rewrite Nat.leb_refl. by rewrite firstn_all.
Qed.

(** C2.  On a stream just opened over a member's bytes, whose reported size,
    when there is one, is the exact length, [read] returns the member's
    bytes whatever strategy applies, and the strategy is chosen in this
    order: a known size gives one exact read of that many bytes; otherwise a
    seekable stream is measured (seek to the end, tell, seek to 0) and read
    exactly; otherwise the stream is copied. *)
Theorem read_whole_content (bytes : list Byte.byte) (size : option nat)
    (seekable : bool) :
  (forall n, size = Some n -> n = length bytes) ->
  exists s',
    IStream_read (IStream_open bytes size seekable) = Ok (bytes, s')
    /\ calls s' =
       match size with
       | Some n => [call_read n]
       | None =>
           if seekable
           then [call_seekg_end; call_tellg; call_seekg 0;
                 call_read (length bytes)]
           else [call_copy]
       end.
Proof.
  intros Hsize. unfold IStream_read, IStream_open; simpl.
  destruct size as [n|].
  - rewrite binaryio_read_all by auto.
    eexists. split; done.
  - destruct seekable.
    + unfold tellg, seekg_end, seekg, with_stream; simpl.
      rewrite binaryio_read_all by done.
      eexists. split; done.
    + unfold bio_copy; simpl. eexists. split; done.
Qed.

Lemma read_whole_content_witness :
  (forall n, Some 3 = Some n -> n = length [Byte.x61; Byte.x62; Byte.x63])
  /\ (exists s',
        IStream_read (IStream_open [Byte.x61; Byte.x62; Byte.x63] (Some 3) true)
        = Ok ([Byte.x61; Byte.x62; Byte.x63], s')
        /\ calls s' = [call_read 3])
  /\ (exists s',
        IStream_read (IStream_open [Byte.x61; Byte.x62; Byte.x63] None true)
        = Ok ([Byte.x61; Byte.x62; Byte.x63], s')
        /\ calls s' = [call_seekg_end; call_tellg; call_seekg 0; call_read 3])
  /\ (exists s',
        IStream_read (IStream_open [Byte.x61; Byte.x62; Byte.x63] None false)
        = Ok ([Byte.x61; Byte.x62; Byte.x63], s')
        /\ calls s' = [call_copy]).
Proof.
  split; [intros n [= <-]; reflexivity|].
  split; [|split].
  - apply (read_whole_content [Byte.x61; Byte.x62; Byte.x63] (Some 3) true).
    intros n [= <-]. reflexivity.
  - apply (read_whole_content [Byte.x61; Byte.x62; Byte.x63] None true).
    intros n Hn. discriminate Hn.
  - apply (read_whole_content [Byte.x61; Byte.x62; Byte.x63] None false).
    intros n Hn. discriminate Hn.
Defined.

(** A reported size that is not the length of the source: a shorter one
    truncates the content, a longer one makes the exact read throw. *)
Example read_with_wrong_size :
  opt_of (IStream_read (IStream_open [Byte.x61; Byte.x62; Byte.x63]
                          (Some 2) false))
    ≫= (fun r => Some (fst r)) = Some [Byte.x61; Byte.x62]
  /\ opt_of (IStream_read (IStream_open [Byte.x61; Byte.x62; Byte.x63]
                             (Some 4) false)) = None.
Proof. split; reflexivity. Qed.

(** ** The hint matcher *)

Section MatcherFacts.
Context `{PL : PathLib}.

Lemma Matcher_loop_Some hint fname index n i :
  Matcher_loop hint fname index n = Some i ->
  index <= i < index + n
  /\ hint !! i = Some fname
  /\ forall j, index <= j < i -> hint !! j <> Some fname.
Proof.
  revert index. induction n as [|n IH]; intros index; simpl; [done|].
  destruct (hint !! index) as [c|] eqn:E.
  - destruct (String.eqb_spec fname c) as [->|Hne].
    + intros [= <-]. split_and!; [lia|lia|done|intros j Hj; lia].
    + intros H. destruct (IH _ H) as (Hr & Hi & Hbelow).
      split_and!; [lia|lia|done|].
      intros j Hj. destruct (decide (j = index)) as [->|Hji].
      * rewrite E. congruence.
      * apply Hbelow. lia.
  - intros H. destruct (IH _ H) as (Hr & Hi & Hbelow).
    split_and!; [lia|lia|done|].
    intros j Hj. destruct (decide (j = index)) as [->|Hji].
    + by rewrite E.
    + apply Hbelow. lia.
Qed.

Lemma Matcher_loop_None hint fname index n :
  Matcher_loop hint fname index n = None <->
  forall j, index <= j < index + n -> hint !! j <> Some fname.
Proof.
  revert index. induction n as [|n IH]; intros index; simpl.
  - split; [intros _ j Hj; lia | done].
  - destruct (hint !! index) as [c|] eqn:E.
    + destruct (String.eqb_spec fname c) as [->|Hne].
      * split; [done|]. intros H. exfalso. apply (H index); [lia|done].
      * rewrite IH. split; intros H j Hj.
        -- destruct (decide (j = index)) as [->|Hji];
             [rewrite E; congruence | apply H; lia].
        -- apply H. lia.
    + rewrite IH. split; intros H j Hj.
      * destruct (decide (j = index)) as [->|Hji];
          [by rewrite E | apply H; lia].
      * apply H. lia.
Qed.

(** C3.  One call of the matcher on a state with [bestIndex] within the
    candidate list: the file name of the path is compared with the
    candidates below [bestIndex] in ascending order; at the first index [i]
    that matches, [bestIndex] becomes [i] and [bestMatch] the path; with no
    match below [bestIndex] the state is unchanged; the call returns [true]
    exactly when [bestIndex] is 0 afterwards, so a matcher that has reached
    index 0 answers [true] to every later path without changing. *)
Theorem matcher_call_spec (m : Matcher) (path : string) :
  bestIndex_ m <= length (m_hint_ m) ->
  let m' := fst (Matcher_call m path) in
  let stop := snd (Matcher_call m path) in
  (stop = true <-> bestIndex_ m' = 0)
  /\ m_hint_ m' = m_hint_ m
  /\ ((exists i,
         i < bestIndex_ m
         /\ m_hint_ m !! i = Some (filename path)
         /\ (forall j, j < i -> m_hint_ m !! j <> Some (filename path))
         /\ bestIndex_ m' = i /\ bestMatch_ m' = path)
      \/ ((forall j, j < bestIndex_ m ->
                     m_hint_ m !! j <> Some (filename path))
          /\ m' = m))
  /\ (bestIndex_ m = 0 -> m' = m /\ stop = true).
Proof.
  intros Hinv. unfold Matcher_call. simpl.
  destruct (Matcher_loop (m_hint_ m) (filename path) 0 (bestIndex_ m))
    as [i|] eqn:E; simpl.
  - apply Matcher_loop_Some in E as (Hr & Hi & Hbelow).
    split_and!; [apply Nat.eqb_eq|done| |intros H0; lia].
    left. exists i. split_and!; [lia|done| |done|done].
    intros j Hj. apply Hbelow. lia.
  - split_and!; [apply Nat.eqb_eq|done| |].
    + right. split; [|done].
      intros j Hj. apply (proj1 (Matcher_loop_None _ _ _ _) E). lia.
    + intros H0. split; [done|]. by rewrite H0.
Qed.

Lemma Matcher_feed_snoc (m : Matcher) paths p :
  Matcher_feed m (paths ++ [p]) = fst (Matcher_call (Matcher_feed m paths) p).
Proof. unfold Matcher_feed. by rewrite foldl_app. Qed.

(** What holds of a matcher after any sequence of calls, started in a
    state where nothing has matched yet. *)
Lemma Matcher_feed_invariant (m0 : Matcher) (paths : list string) :
  bestIndex_ m0 = length (m_hint_ m0) ->
  let m := Matcher_feed m0 paths in
  m_hint_ m = m_hint_ m0
  /\ bestIndex_ m <= length (m_hint_ m0)
  /\ (bestIndex_ m < length (m_hint_ m0) ->
      bestMatch_ m ∈ paths
      /\ m_hint_ m0 !! bestIndex_ m = Some (filename (bestMatch_ m))).
Proof.
  intros Hinit.
  induction paths as [|p paths IH] using rev_ind.
  - simpl. split_and!; [done|lia|lia].
  - rewrite Matcher_feed_snoc. cbv zeta in IH.
    set (m := Matcher_feed m0 paths) in *.
    destruct IH as (Hh & Hle & Hbest).
    unfold Matcher_call. simpl.
    destruct (Matcher_loop (m_hint_ m) (filename p) 0 (bestIndex_ m))
      as [i|] eqn:E; simpl.
    + apply Matcher_loop_Some in E as (Hr & Hi & _).
      split_and!; [done|lia|]. intros _. split.
      * apply elem_of_app. right. apply list_elem_of_here.
      * by rewrite <- Hh.
    + split_and!; [done|done|]. intros Hlt.
      destruct (Hbest Hlt) as [Hin Hc]. split; [|done].
      apply elem_of_app. by left.
Qed.

(** C10.  Start a matcher in a state where nothing has matched yet
    ([bestIndex] is the length of the candidate list).  Let [m] be the
    matcher after any sequence of observed paths and [m'] the matcher after
    one more path [p].  Then [bestIndex] does not grow from [m] to [m'];
    [bestIndex] never exceeds the length of the candidate list and, when it
    is strictly below that length, [bestMatch] is one of the observed paths
    and its file name is the candidate at [bestIndex]; and when [p] matches
    no candidate below [bestIndex] (it may match one at or above it), the
    call leaves the matcher, [bestMatch] included, as it was. *)
Theorem matcher_best_index_monotone (m0 : Matcher) (paths : list string)
    (p : string) :
  bestIndex_ m0 = length (m_hint_ m0) ->
  let m := Matcher_feed m0 paths in
  let m' := fst (Matcher_call m p) in
  m' = Matcher_feed m0 (paths ++ [p])
  /\ bestIndex_ m' <= bestIndex_ m
  /\ bestIndex_ m <= length (m_hint_ m0)
  /\ (bestIndex_ m < length (m_hint_ m0) ->
      bestMatch_ m ∈ paths
      /\ m_hint_ m0 !! bestIndex_ m = Some (filename (bestMatch_ m)))
  /\ ((forall i, i < bestIndex_ m ->
                 m_hint_ m0 !! i <> Some (filename p)) ->
      m' = m).
Proof.
  intros Hinit m m'.
  destruct (Matcher_feed_invariant m0 paths Hinit) as (Hh & Hle & Hbest).
  fold m in Hh, Hle, Hbest.
  split; [by rewrite Matcher_feed_snoc|].
  split_and!; [|done|done|].
  - subst m'. unfold Matcher_call. simpl.
    destruct (Matcher_loop (m_hint_ m) (filename p) 0 (bestIndex_ m))
      as [i|] eqn:E; simpl; [|done].
    apply Matcher_loop_Some in E. lia.
  - intros Hno. subst m'. unfold Matcher_call. simpl.
    destruct (Matcher_loop (m_hint_ m) (filename p) 0 (bestIndex_ m))
      as [i|] eqn:E; simpl; [|done].
    apply Matcher_loop_Some in E as (Hr & Hi & _).
    exfalso. apply (Hno i); [lia|]. by rewrite <- Hh.
Qed.

End MatcherFacts.

Lemma matcher_call_spec_witness :
  let m := Matcher_new {| hint_ := ["config.json"; "CONFIG.JSON"] |} in
  bestIndex_ m <= length (m_hint_ m)
  /\ Matcher_call m "sub/config.json"
     = ({| m_hint_ := ["config.json"; "CONFIG.JSON"]; bestIndex_ := 0;
           bestMatch_ := "sub/config.json" |}, true)
  /\ (snd (Matcher_call m "sub/config.json") = true <->
      bestIndex_ (fst (Matcher_call m "sub/config.json")) = 0)
  /\ Matcher_call (fst (Matcher_call m "sub/config.json")) "top/CONFIG.JSON"
     = (fst (Matcher_call m "sub/config.json"), true).
Proof.
  intros m.
  assert (bestIndex_ m <= length (m_hint_ m)) as Hm by (simpl; lia).
  split; [exact Hm|]. split; [reflexivity|].
  split; [|reflexivity].
  exact (proj1 (matcher_call_spec m "sub/config.json" Hm)).
Defined.

Lemma matcher_best_index_monotone_witness :
  let m0 := Matcher_new {| hint_ := ["config.json"; "CONFIG.JSON"] |} in
  let m := Matcher_feed m0 ["sub/readme.txt"; "top/CONFIG.JSON"] in
  let m' := fst (Matcher_call m "other/CONFIG.JSON") in
  bestIndex_ m0 = length (m_hint_ m0)
  /\ m = {| m_hint_ := ["config.json"; "CONFIG.JSON"]; bestIndex_ := 1;
            bestMatch_ := "top/CONFIG.JSON" |}
  /\ m' = m
  /\ bestIndex_ m' <= bestIndex_ m
  /\ bestIndex_ m <= length (m_hint_ m0).
Proof.
  intros m0 m m'.
  assert (bestIndex_ m0 = length (m_hint_ m0)) as Hinit by reflexivity.
  destruct (matcher_best_index_monotone m0
              ["sub/readme.txt"; "top/CONFIG.JSON"] "other/CONFIG.JSON" Hinit)
    as (_ & Hmono & Hle & _ & _).
  split; [exact Hinit|]. split; [reflexivity|]. split; [reflexivity|].
  split; [exact Hmono | exact Hle].
Defined.

(** Candidates discovered out of priority order: the less preferred
    candidate is kept until the preferred one is seen, and is not taken
    back afterwards. *)
Example matcher_out_of_order :
  let m := Matcher_new {| hint_ := ["config.json"; "CONFIG.JSON"] |} in
  Matcher_feed m ["top/CONFIG.JSON"]
  = {| m_hint_ := ["config.json"; "CONFIG.JSON"]; bestIndex_ := 1;
       bestMatch_ := "top/CONFIG.JSON" |}
  /\ Matcher_feed m ["top/CONFIG.JSON"; "sub/config.json"; "x/CONFIG.JSON"]
     = {| m_hint_ := ["config.json"; "CONFIG.JSON"]; bestIndex_ := 0;
          bestMatch_ := "sub/config.json" |}.
Proof. split; reflexivity. Qed.

(** ** The factory *)

Lemma substring_all (s : string) : String.substring 0 (String.length s) s = s.
Proof. induction s as [|c s IH]; simpl; [done|]. by rewrite IH. Qed.

(** [std::string::find] returns the first occurrence, and the two
    [substr] calls of the factory give what stands before and after it. *)
Lemma string_find_Some (s : string) (c : ascii) (n : nat) :
  string_find s c = Some n ->
  exists pre suf,
    s = pre +:+ String c suf
    /\ String.length pre = n
    /\ ~ In c (list_ascii_of_string pre)
    /\ substr s 0 n = pre
    /\ substr_from s (n + 1) = suf.
Proof.
  revert n. induction s as [|a s IH]; intros n; simpl; [done|].
  destruct (Ascii.eqb_spec a c) as [->|Hne].
  - intros [= <-]. exists EmptyString, s. split_and!; try done.
    + simpl. tauto.
    + unfold substr_from. simpl. rewrite Nat.sub_0_r. apply substring_all.
  - destruct (string_find s c) as [k|] eqn:E; simpl; [|done].
    intros [= <-].
    destruct (IH k eq_refl) as (pre & suf & -> & Hlen & Hnot & Hpre & Hsuf).
    exists (String a pre), suf. split_and!.
    + done.
    + simpl. by rewrite Hlen.
    + simpl. intros [Hac|Hin]; [congruence | by apply Hnot].
    + unfold substr in *. simpl. by rewrite Hpre.
    + unfold substr_from in *. simpl. exact Hsuf.
Qed.

Lemma string_find_None (s : string) (c : ascii) :
  string_find s c = None <-> ~ In c (list_ascii_of_string s).
Proof.
  induction s as [|a s IH]; simpl; [tauto|].
  destruct (Ascii.eqb_spec a c) as [->|Hne].
  - split; [done|]. intros H. exfalso. apply H. by left.
  - destruct (string_find s c) as [k|] eqn:E; simpl.
    + split; [done|]. intros H. exfalso.
      assert (~ In c (list_ascii_of_string s)) as Hs by tauto.
      apply IH in Hs. done.
    + split; [|done]. intros _ [Hac|Hin]; [congruence|].
      by apply (proj1 IH).
Qed.

Lemma string_find_occurs (s : string) (c : ascii) :
  In c (list_ascii_of_string s) -> exists n, string_find s c = Some n.
Proof.
  intros Hin. destruct (string_find s c) as [n|] eqn:E; [by exists n|].
  by apply string_find_None in E.
Qed.

Lemma split_inline_hint_absent (path : string) (opts : OpenOptions) :
  ~ In (inlineHint opts) (list_ascii_of_string path) ->
  split_inline_hint path opts = (path, opts).
Proof.
  intros Hnot. unfold split_inline_hint.
  apply string_find_None in Hnot. rewrite Hnot.
  by destruct (negb _).
Qed.

Section FacadeFacts.
Context `{PL : PathLib} `{TL : TarLib} `{HO : Host}.

Lemma factory_resolved (path : string) (opts : OpenOptions) :
  factory path opts =
  try! magic <- resolved_type path opts;
  dispatch magic (fst (split_inline_hint path opts))
    (detect_url (fst (split_inline_hint path opts))
                (snd (split_inline_hint path opts))).
Proof.
  unfold factory, resolved_type.
  by destruct (split_inline_hint path opts) as [p o].
Qed.

(** C4.  When an inline hint marker is configured and occurs in the path
    string, the string is the real path, the marker and the suffix, the
    real path holding no marker (the split is at the first occurrence); the
    inline hint block yields the real path and the options with their hint
    replaced by the suffix, whatever hint they held; and it is the real
    path and these options that the factory opens: the URL check, the type
    detection and the dispatch to a backend all receive the real path, and
    the backend receives the options whose hint is the suffix.  So the
    factory opens the string exactly as it opens the real path with that
    hint. *)
Theorem inline_hint_split (path : string) (opts : OpenOptions) :
  inlineHint opts <> Ascii.zero ->
  In (inlineHint opts) (list_ascii_of_string path) ->
  exists real suffix,
    path = real +:+ String (inlineHint opts) suffix
    /\ ~ In (inlineHint opts) (list_ascii_of_string real)
    /\ split_inline_hint path opts
       = (real,
          {| mime := mime opts; inlineHint := inlineHint opts;
             hint := FileHint_of_string suffix;
             fileLimit := fileLimit opts |})
    /\ factory path opts
       = (try! magic <-
            detect_magic real
              (detect_url real (setHint opts (FileHint_of_string suffix)));
          dispatch magic real
            (detect_url real (setHint opts (FileHint_of_string suffix))))
    /\ factory path opts
       = factory real (setHint opts (FileHint_of_string suffix)).
Proof.
  intros Hmarker Hin.
  destruct (string_find_occurs _ _ Hin) as [n Hn].
  destruct (string_find_Some _ _ _ Hn)
    as (real & suffix & Hpath & Hlen & Hnot & Hpre & Hsuf).
  assert (split_inline_hint path opts
          = (real, setHint opts (FileHint_of_string suffix))) as Hsplit.
  { unfold split_inline_hint.
    destruct (Ascii.eqb_spec (inlineHint opts) Ascii.zero) as [Hz|_];
      [done|]. simpl. by rewrite Hn, Hpre, Hsuf. }
  exists real, suffix. split_and!; [done|done|exact Hsplit| |].
  - unfold factory. by rewrite Hsplit.
  - unfold factory at 1. rewrite Hsplit.
    unfold factory.
    by rewrite (split_inline_hint_absent real
                  (setHint opts (FileHint_of_string suffix)) Hnot).
Qed.

(** C7.  When the type token resolved for a path is none of
    [inode/directory], [application/x-tar], [application/zip] and [http],
    the factory, and with it the construction of the archive, throws
    [NotAnArchive] with the message: Unsupported archive type, the token in
    angle brackets, full stop. *)
Theorem unsupported_type_fails (path : string) (opts : OpenOptions)
    (magic : string) :
  resolved_type path opts = Ok magic ->
  magic <> "inode/directory" ->
  magic <> "application/x-tar" ->
  magic <> "application/zip" ->
  magic <> "http" ->
  factory path opts
  = Throw (NotAnArchive ("Unsupported archive type <" +:+ magic +:+ ">."))
  /\ RoArchive_new path opts
     = Throw (NotAnArchive ("Unsupported archive type <" +:+ magic +:+ ">.")).
Proof.
  intros Hmagic Hd Ht Hz Hh.
  assert (factory path opts
          = Throw (NotAnArchive (unsupported_message magic))) as Hf.
  { rewrite factory_resolved, Hmagic. simpl. unfold dispatch.
    apply String.eqb_neq in Hd, Ht, Hz, Hh.
    rewrite Hd, Ht, Hz, Hh. by rewrite andb_false_r. }
  split; [exact Hf|]. unfold RoArchive_new. by rewrite Hf.
Qed.

(** C5.  When no member of the tarball has the anchor as its file name,
    building the index throws the runtime error saying that the anchor was
    not found in the tarball archive at the archive path; so does the
    construction of the tar backend over that tarball, and so does the
    construction of the archive whenever the factory resolves the path to
    the tar backend with that anchor. *)
Theorem missing_anchor_fails (path h : string) (reader : Reader) :
  (forall f, f ∈ reader_files reader -> filename (file_path f) <> h) ->
  let e := runtime_error
             ("No " +:+ dquote +:+ h +:+ dquote
              +:+ " found in the tarball archive at "
              +:+ path_ostream (reader_path reader) +:+ ".") in
  TarIndex_new reader (Some h) = Throw e
  /\ (tar_Reader path = Ok reader -> Tarball_new path (Some h) = Throw e)
  /\ (forall given opts opts',
        tar_Reader path = Ok reader ->
        split_inline_hint given opts = (path, opts') ->
        resolved_type given opts = Ok "application/x-tar" ->
        tarball_hint (detect_url path opts') = Some h ->
        factory given opts = Throw e /\ RoArchive_new given opts = Throw e).
Proof.
  intros Hno e.
  assert (TarIndex_new reader (Some h) = Throw e) as Hindex.
  { unfold TarIndex_new. simpl. by rewrite findPrefix_missing. }
  assert (tar_Reader path = Ok reader -> Tarball_new path (Some h) = Throw e)
    as Hbackend.
  { intros Hr. unfold Tarball_new. rewrite Hr. simpl. by rewrite Hindex. }
  split_and!; [done|done|].
  intros given opts opts' Hr Hsplit Hmagic Hhint.
  assert (factory given opts = Throw e) as Hf.
  { rewrite factory_resolved, Hmagic, Hsplit. simpl.
    unfold dispatch. simpl. unfold tarball. rewrite Hhint.
    by rewrite (Hbackend Hr). }
  split; [exact Hf|]. unfold RoArchive_new. by rewrite Hf.
Qed.

End FacadeFacts.

Lemma inline_hint_split_witness :
  let opts := {| mime := "application/x-tar"; inlineHint := "#"%char;
                 hint := {| hint_ := ["other.file"] |}; fileLimit := 0 |} in
  inlineHint opts <> Ascii.zero
  /\ In (inlineHint opts) (list_ascii_of_string "archive.tar#inner/hint.file")
  /\ split_inline_hint "archive.tar#inner/hint.file" opts
     = ("archive.tar",
        {| mime := "application/x-tar"; inlineHint := "#"%char;
           hint := {| hint_ := ["inner/hint.file"] |}; fileLimit := 0 |})
  /\ @factory relative_paths (fixed_tar []) (fixed_host "text/plain")
       "archive.tar#inner/hint.file" opts
     = Throw (runtime_error
                ("No " +:+ dquote +:+ "inner/hint.file" +:+ dquote
                 +:+ " found in the tarball archive at "
                 +:+ dquote +:+ "archive.tar" +:+ dquote +:+ "."))
  /\ exists real suffix,
       "archive.tar#inner/hint.file" = real +:+ String "#"%char suffix
       /\ ~ In "#"%char (list_ascii_of_string real)
       /\ split_inline_hint "archive.tar#inner/hint.file" opts
          = (real,
             {| mime := "application/x-tar"; inlineHint := "#"%char;
                hint := FileHint_of_string suffix; fileLimit := 0 |})
       /\ @factory relative_paths (fixed_tar []) (fixed_host "text/plain")
            "archive.tar#inner/hint.file" opts
          = (try! magic <-
               @detect_magic (fixed_host "text/plain") real
                 (@detect_url (fixed_host "text/plain") real
                    (setHint opts (FileHint_of_string suffix)));
             @dispatch relative_paths (fixed_tar []) (fixed_host "text/plain")
               magic real
               (@detect_url (fixed_host "text/plain") real
                  (setHint opts (FileHint_of_string suffix))))
       /\ @factory relative_paths (fixed_tar []) (fixed_host "text/plain")
            "archive.tar#inner/hint.file" opts
          = @factory relative_paths (fixed_tar []) (fixed_host "text/plain")
              real (setHint opts (FileHint_of_string suffix)).
Proof.
  intros opts.
  assert (inlineHint opts <> Ascii.zero) as Hmarker by discriminate.
  assert (In (inlineHint opts)
             (list_ascii_of_string "archive.tar#inner/hint.file")) as Hin
    by (do 11 right; left; reflexivity).
  split; [exact Hmarker|]. split; [exact Hin|]. split; [reflexivity|].
  split; [reflexivity|].
  exact (@inline_hint_split relative_paths (fixed_tar [])
           (fixed_host "text/plain")
           "archive.tar#inner/hint.file" opts Hmarker Hin).
Defined.

Lemma unsupported_type_fails_witness :
  @resolved_type (fixed_host "text/plain") "notes.txt" default_options
  = Ok "text/plain"
  /\ @factory relative_paths (fixed_tar []) (fixed_host "text/plain")
       "notes.txt" default_options
     = Throw (NotAnArchive "Unsupported archive type <text/plain>.")
  /\ @RoArchive_new relative_paths (fixed_tar []) (fixed_host "text/plain")
       "notes.txt" default_options
     = Throw (NotAnArchive "Unsupported archive type <text/plain>.").
Proof.
  split; [reflexivity|].
  apply (@unsupported_type_fails relative_paths (fixed_tar [])
           (fixed_host "text/plain") "notes.txt" default_options
           "text/plain");
    [reflexivity | discriminate | discriminate | discriminate | discriminate].
Defined.

(** Without HTTP support compiled in, the token [http] is unsupported as
    well, here for a path given with an explicit type. *)
Example http_without_support :
  @factory relative_paths (fixed_tar []) (fixed_host "text/plain")
    "http://host/archive" (setMime default_options "http")
  = Throw (NotAnArchive "Unsupported archive type <http>.").
Proof. reflexivity. Qed.

Lemma missing_anchor_fails_witness :
  let opts := {| mime := ""; inlineHint := Ascii.zero;
                 hint := {| hint_ := ["zz"] |}; fileLimit := 0 |} in
  let e := runtime_error
             ("No " +:+ dquote +:+ "zz" +:+ dquote
              +:+ " found in the tarball archive at "
              +:+ dquote +:+ "x.tar" +:+ dquote +:+ ".") in
  (forall f, f ∈ reader_files dir_ab -> filename (file_path f) <> "zz")
  /\ TarIndex_new dir_ab (Some "zz") = Throw e
  /\ @Tarball_new relative_paths (fixed_tar (reader_files dir_ab))
       "x.tar" (Some "zz") = Throw e
  /\ @RoArchive_new relative_paths (fixed_tar (reader_files dir_ab))
       (fixed_host "application/x-tar") "x.tar" opts = Throw e.
Proof.
  intros opts e.
  assert (forall f, f ∈ reader_files dir_ab ->
                    filename (file_path f) <> "zz") as Hno.
  { intros f Hf.
    apply elem_of_cons in Hf as [->|Hf]; [discriminate|].
    apply elem_of_cons in Hf as [->|Hf]; [discriminate|].
    by apply not_elem_of_nil in Hf. }
  destruct (@missing_anchor_fails relative_paths
              (fixed_tar (reader_files dir_ab))
              (fixed_host "application/x-tar") "x.tar" "zz" dir_ab Hno)
    as (Hindex & Hbackend & Hfacade).
  split; [exact Hno|]. split; [exact Hindex|].
  split; [exact (Hbackend eq_refl)|].
  exact (proj2 (Hfacade "x.tar" opts opts eq_refl eq_refl eq_refl eq_refl)).
Defined.

(** * Further properties of the tar backend *)

Lemma fmap_same_elem {A B : Type} (f : A -> B) (l : list A) (x y : A) :
  NoDup (f <$> l) -> x ∈ l -> y ∈ l -> f x = f y -> x = y.
Proof.
  induction l as [|a l IH]; intros Hnd Hx Hy Hf.
  - by apply not_elem_of_nil in Hx.
  - rewrite fmap_cons in Hnd. apply NoDup_cons in Hnd as [Hnotin Hnd].
    apply elem_of_cons in Hx as [->|Hx];
      apply elem_of_cons in Hy as [->|Hy].
    + done.
    + exfalso. apply Hnotin. rewrite Hf. by apply list_elem_of_fmap_2.
    + exfalso. apply Hnotin. rewrite <- Hf. by apply list_elem_of_fmap_2.
    + by apply IH.
Qed.

Lemma find_unique {A : Type} (p : A -> bool) (l : list A) (x : A) :
  x ∈ l -> p x = true -> (forall y, y ∈ l -> p y = true -> y = x) ->
  List.find p l = Some x.
Proof.
  intros Hin Hp Huniq. destruct (List.find p l) as [y|] eqn:E.
  - apply find_some in E as [Hy Hpy]. f_equal.
    apply Huniq; [by apply list_elem_of_In | done].
  - apply list_elem_of_In in Hin.
    by rewrite (find_none _ _ E x Hin) in Hp.
Qed.

Lemma map_insert_size (k : string) (v : Filedes) (m : gmap string Filedes) :
  size (map_insert k v m) = match m !! k with
                            | Some _ => size m
                            | None => S (size m)
                            end.
Proof.
  unfold map_insert. destruct (m !! k) eqn:E; [done|].
  by apply map_size_insert_None.
Qed.

Section TarBackendFacts.
Context `{PL : PathLib} `{TL : TarLib}.

Lemma elem_of_members_under prefix files f :
  f ∈ members_under prefix files <-> f ∈ files /\ under prefix f.
Proof.
  unfold members_under, under. rewrite !list_elem_of_In. apply filter_In.
Qed.

Lemma insert_members_size_le prefix d members (index : gmap string Filedes) :
  size (insert_members prefix d members index) <= size index + length members.
Proof.
  revert index. induction members as [|f members IH]; intros index; simpl.
  - lia.
  - etrans; [apply IH|]. rewrite map_insert_size.
    destruct (index !! relative prefix f); lia.
Qed.

Lemma insert_members_size_distinct prefix d members
    (index : gmap string Filedes) :
  NoDup (relative prefix <$> members) ->
  (forall f, f ∈ members -> index !! relative prefix f = None) ->
  size (insert_members prefix d members index) = size index + length members.
Proof.
  revert index. induction members as [|f members IH]; intros index Hnd Hfresh;
    simpl.
  - lia.
  - rewrite fmap_cons in Hnd. apply NoDup_cons in Hnd as [Hnotin Hnd].
    rewrite IH; [| done |].
    + rewrite map_insert_size, (Hfresh f) by apply list_elem_of_here. lia.
    + intros g Hg. rewrite map_insert_lookup.
      rewrite (Hfresh g) by by apply list_elem_of_further.
      destruct (String.eqb_spec (relative prefix f) (relative prefix g))
        as [Heq|_]; [|done].
      exfalso. apply Hnotin. rewrite Heq. by apply list_elem_of_fmap_2.
Qed.

Lemma TarIndex_prefix_anchored path hint files prefix :
  TarIndex_prefix path hint files = Ok prefix -> anchored hint files.
Proof.
  intros H. apply TarIndex_prefix_Ok in H.
  destruct hint as [h|]; simpl in *; [|done].
  destruct H as (before & a & after & -> & Ha & _).
  exists a. split; [|done]. apply elem_of_app. right. apply list_elem_of_here.
Qed.

Lemma TarIndex_new_Throw reader hint e :
  TarIndex_prefix (reader_path reader) hint (reader_files reader) = Throw e ->
  TarIndex_new reader hint = Throw e.
Proof. intros H. unfold TarIndex_new. by rewrite H. Qed.

(** The first member under the prefix that strips to a key is the one a
    search for that key finds. *)
Lemma find_stored_first prefix before f after :
  under prefix f ->
  (forall g, g ∈ before -> under prefix g ->
             relative prefix g <> relative prefix f) ->
  List.find (stored_under prefix (relative prefix f)) (before ++ f :: after)
  = Some f.
Proof.
  intros Hu Hfirst. apply find_first.
  - intros g Hg. apply not_true_is_false. intros Hst.
    apply stored_under_true in Hst as [Hgu Hgr]. by apply (Hfirst g).
  - by apply stored_under_true.
Qed.

(** X1.  Opening a tarball succeeds exactly when the tar reader opens the
    archive and the hint, if any, names a member of it; an error of the
    reader comes out unchanged, whatever the hint; and the backend that
    results keeps the path it was opened with, the reader, and the index
    built from that reader. *)
Theorem tarball_opens_iff (path : string) (hint : option string) :
  (is_Ok (Tarball_new path hint) <->
   exists reader,
     tar_Reader path = Ok reader /\ anchored hint (reader_files reader))
  /\ (forall e, tar_Reader path = Throw e -> Tarball_new path hint = Throw e)
  /\ (forall tb,
        Tarball_new path hint = Ok tb ->
        detail_path tb = path
        /\ tar_Reader path = Ok (reader_ tb)
        /\ TarIndex_new (reader_ tb) hint = Ok (tarball_index_ tb)).
Proof.
  unfold Tarball_new, is_Ok. split_and!.
  - destruct (tar_Reader path) as [reader|e]; simpl.
    + split.
      * intros [tb Htb]. exists reader. split; [done|].
        destruct (TarIndex_prefix (reader_path reader) hint
                    (reader_files reader)) as [prefix|e] eqn:E.
        -- by apply (TarIndex_prefix_anchored _ _ _ _ E).
        -- by rewrite (TarIndex_new_Throw _ _ _ E) in Htb.
      * intros (r & [= <-] & Hanchor).
        destruct (TarIndex_prefix_total (reader_path reader) _ _ Hanchor)
          as [prefix Hprefix].
        rewrite (TarIndex_new_Ok _ _ _ Hprefix). simpl. by eexists.
    + split; [intros [? ?]; done | intros (r & Hr & _); done].
  - intros e ->. done.
  - intros tb. destruct (tar_Reader path) as [reader|e]; simpl; [|done].
    destruct (TarIndex_new reader hint) as [t|e] eqn:E; simpl; [|done].
    intros [= <-]. simpl. by split_and!.
Qed.

(** X2.  Opening a member of a tar backend.  Let the backend be built and
    its hint resolve to a prefix.  A request equal to the stripped path of a
    member under the prefix yields a stream that carries the requested path,
    reads the byte range of the first such member on the reader's handle,
    reports [end - start] (in [std::size_t]) as its size and has a 64 KiB
    buffer; a request that is the stripped path of no member under the
    prefix throws the not found error naming the request and the archive. *)
Theorem tarball_istream_member (path : string) (hint : option string)
    (tb : Tarball) (prefix : string) :
  Tarball_new path hint = Ok tb ->
  TarIndex_prefix (reader_path (reader_ tb)) hint
    (reader_files (reader_ tb)) = Ok prefix ->
  (forall before f after,
     reader_files (reader_ tb) = before ++ f :: after ->
     under prefix f ->
     (forall g, g ∈ before -> under prefix g ->
                relative prefix g <> relative prefix f) ->
     Tarball_istream tb (relative prefix f)
     = Ok {| tar_path_ := relative prefix f;
             tar_size_ := (file_end f - file_start f) mod 2 ^ 64;
             tar_buffer_size := 65536;
             tar_device := {| fd := reader_filedes (reader_ tb);
                              start := file_start f;
                              end_ := file_end f |} |})
  /\ (forall request,
        (forall f, f ∈ reader_files (reader_ tb) -> under prefix f ->
                   relative prefix f <> request) ->
        Tarball_istream tb request
        = Throw (runtime_error
                   ("File " +:+ dquote +:+ request +:+ dquote
                    +:+ " not found in the archive at "
                    +:+ path_ostream (reader_path (reader_ tb)) +:+ "."))).
Proof.
  intros Hnew Hprefix.
  unfold Tarball_new in Hnew.
  destruct (tar_Reader path) as [reader|e]; simpl in Hnew; [|done].
  rewrite (TarIndex_new_Ok reader hint prefix) in Hnew.
  2:{ destruct (TarIndex_new reader hint) as [t|e'] eqn:E; simpl in Hnew;
        [|done]. injection Hnew as <-. exact Hprefix. }
  simpl in Hnew. injection Hnew as <-. simpl in *.
  unfold Tarball_istream, TarIndex_file. simpl. split.
  - intros before f after Hfiles Hu Hfirst.
    rewrite TarIndex_loop_lookup, lookup_empty, Hfiles.
    by rewrite find_stored_first.
  - intros request Hnone.
    rewrite TarIndex_loop_lookup, lookup_empty.
    destruct (List.find _ (reader_files reader)) as [f|] eqn:E; simpl;
      [|done].
    apply find_some in E as [Hin Hst].
    apply stored_under_true in Hst as [Hu Hr].
    exfalso. apply (Hnone f); [by apply list_elem_of_In|done|done].
Qed.

End TarBackendFacts.

Section TarIndexShape.
Context `{PL : PathLib}.

(** X3.  When the members under the resolved prefix strip to pairwise
    distinct paths, nothing is lost: the index is built, every member under
    the prefix is found under its stripped path with its own byte range, and
    the index has as many entries as there are members under the prefix. *)
Theorem tar_index_distinct_paths (reader : Reader) (hint : option string)
    (prefix : string) :
  TarIndex_prefix (reader_path reader) hint (reader_files reader) = Ok prefix ->
  NoDup (relative prefix <$> members_under prefix (reader_files reader)) ->
  exists t,
    TarIndex_new reader hint = Ok t
    /\ (forall f, f ∈ reader_files reader -> under prefix f ->
                  TarIndex_file t (relative prefix f)
                  = Ok {| fd := reader_filedes reader;
                          start := file_start f; end_ := file_end f |})
    /\ size (index_ t) = length (members_under prefix (reader_files reader)).
Proof.
  intros Hprefix Hnd. eexists. split; [by apply TarIndex_new_Ok|].
  simpl. split.
  - intros f Hin Hu. unfold TarIndex_file. simpl.
    rewrite TarIndex_loop_lookup, lookup_empty.
    rewrite (find_unique _ _ f); [done|done| |].
    + by apply stored_under_true.
    + intros g Hg Hst. apply stored_under_true in Hst as [Hgu Hgr].
      apply (fmap_same_elem (relative prefix)
               (members_under prefix (reader_files reader)));
        [done| | |done]; by apply elem_of_members_under.
  - rewrite TarIndex_loop_insert_members.
    rewrite insert_members_size_distinct; [|done|].
    + by rewrite map_size_empty.
    + intros f _. apply lookup_empty.
Qed.

(** X4.  The index never has more entries than there are members under the
    prefix, hence never more than the archive has members, and it is empty
    exactly when no member lies under the prefix. *)
Theorem tar_index_size_bound (reader : Reader) (hint : option string)
    (prefix : string) :
  TarIndex_prefix (reader_path reader) hint (reader_files reader) = Ok prefix ->
  exists t,
    TarIndex_new reader hint = Ok t
    /\ size (index_ t) <= length (members_under prefix (reader_files reader))
    /\ length (members_under prefix (reader_files reader))
       <= length (reader_files reader)
    /\ (index_ t = ∅ <-> members_under prefix (reader_files reader) = []).
Proof.
  intros Hprefix. eexists. split; [by apply TarIndex_new_Ok|].
  simpl. split_and!.
  - rewrite TarIndex_loop_insert_members.
    etrans; [apply insert_members_size_le|]. by rewrite map_size_empty.
  - unfold members_under. apply filter_length_le.
  - split.
    + intros Hempty.
      destruct (members_under prefix (reader_files reader)) as [|f ms] eqn:E;
        [done|]. exfalso.
      assert (f ∈ members_under prefix (reader_files reader)) as Hf
        by (rewrite E; apply list_elem_of_here).
      apply elem_of_members_under in Hf as [Hin Hu].
      assert (is_Some (TarIndex_loop prefix (reader_filedes reader)
                         (reader_files reader) ∅ !! relative prefix f))
        as [v Hv].
      { rewrite TarIndex_loop_lookup, lookup_empty, fmap_is_Some.
        apply find_is_Some. exists f. split; [done|].
        by apply stored_under_true. }
      by rewrite Hempty, lookup_empty in Hv.
    + intros Hnone. rewrite TarIndex_loop_insert_members, Hnone. done.
Qed.

(** X5.  With pairwise distinct stripped paths the order of the members in
    the archive does not matter: two readers with the same path and handle
    whose member lists are permutations of each other, and whose hint
    resolves to the same prefix, give the same index. *)
Theorem tar_index_order_independent (reader reader' : Reader)
    (hint : option string) (prefix : string) :
  reader_path reader' = reader_path reader ->
  reader_filedes reader' = reader_filedes reader ->
  reader_files reader ≡ₚ reader_files reader' ->
  TarIndex_prefix (reader_path reader) hint (reader_files reader) = Ok prefix ->
  TarIndex_prefix (reader_path reader') hint (reader_files reader')
  = Ok prefix ->
  NoDup (relative prefix <$> members_under prefix (reader_files reader)) ->
  TarIndex_new reader' hint = TarIndex_new reader hint.
Proof.
  intros Hpath Hfd Hperm Hprefix Hprefix' Hnd.
  rewrite (TarIndex_new_Ok _ _ _ Hprefix), (TarIndex_new_Ok _ _ _ Hprefix').
  rewrite Hpath, Hfd. do 2 f_equal. apply map_eq. intros key.
  rewrite !TarIndex_loop_lookup, !lookup_empty. f_equal.
  destruct (List.find (stored_under prefix key) (reader_files reader))
    as [f|] eqn:E.
  - apply find_some in E as [Hin Hst]. apply list_elem_of_In in Hin.
    apply find_unique; [by rewrite <- Hperm|done|].
    intros g Hg Hgst. rewrite <- Hperm in Hg.
    apply stored_under_true in Hst as [Hu Hr].
    apply stored_under_true in Hgst as [Hgu Hgr].
    apply (fmap_same_elem (relative prefix)
             (members_under prefix (reader_files reader)));
      [done| | |congruence]; by apply elem_of_members_under.
  - destruct (List.find (stored_under prefix key) (reader_files reader'))
      as [g|] eqn:E'; [|done].
    apply find_some in E' as [Hin Hst]. apply list_elem_of_In in Hin.
    rewrite <- Hperm in Hin. apply list_elem_of_In in Hin.
    by rewrite (find_none _ _ E g Hin) in Hst.
Qed.

End TarIndexShape.

(** X6.  The size a tar member stream reports is [end - start] computed in
    [std::size_t]: for offsets in range it is [end - start] when
    [start <= end], in particular 0 for an empty member, and it wraps
    around to [2^64 - (start - end)] when [end < start]; no range is
    refused. *)
Theorem tar_stream_size_wraps (path : string) (d : Filedes) :
  (0 <= start d < 2 ^ 64)%Z -> (0 <= end_ d < 2 ^ 64)%Z ->
  TarIStream_size (TarIStream_new path d)
  = Some (if (start d <=? end_ d)%Z then (end_ d - start d)%Z
          else (2 ^ 64 - (start d - end_ d))%Z)
  /\ (start d = end_ d ->
      TarIStream_size (TarIStream_new path d) = Some 0%Z).
Proof.
  intros Hs He. unfold TarIStream_size, TarIStream_new, wrap_size_t,
    size_t_modulus; simpl.
  change (Z.shiftl 1 64) with (2 ^ 64)%Z. split.
  - f_equal. destruct (Z.leb_spec (start d) (end_ d)).
    + apply Z.mod_small. lia.
    + symmetry. apply (Z.mod_unique _ _ (-1)); lia.
  - intros ->. by rewrite Z.sub_diag.
Qed.

Lemma tarball_istream_member_witness :
  exists tb,
    @Tarball_new relative_paths (fixed_tar (reader_files dir_aba))
      "x.tar" (Some "b") = Ok tb
    /\ Tarball_istream tb "a"
       = Ok {| tar_path_ := "a"; tar_size_ := 488; tar_buffer_size := 65536;
               tar_device := {| fd := 3; start := 512; end_ := 1000 |} |}
    /\ Tarball_istream tb "dir/a"
       = Throw (runtime_error
                  ("File " +:+ dquote +:+ "dir/a" +:+ dquote
                   +:+ " not found in the archive at "
                   +:+ dquote +:+ "x.tar" +:+ dquote +:+ ".")).
Proof.
  exists {| detail_path := "x.tar"; reader_ := dir_aba;
            tarball_index_ :=
              {| path_ := "x.tar";
                 index_ := TarIndex_loop "dir" 3 (reader_files dir_aba) ∅ |} |}.
  assert (@Tarball_new relative_paths (fixed_tar (reader_files dir_aba))
            "x.tar" (Some "b")
          = Ok {| detail_path := "x.tar"; reader_ := dir_aba;
                  tarball_index_ :=
                    {| path_ := "x.tar";
                       index_ := TarIndex_loop "dir" 3
                                   (reader_files dir_aba) ∅ |} |})
    as Hnew by reflexivity.
  split; [exact Hnew|].
  destruct (@tarball_istream_member relative_paths
              (fixed_tar (reader_files dir_aba)) "x.tar" (Some "b") _ "dir"
              Hnew eq_refl) as [Hfound Hmissing].
  split.
  - refine (Hfound [] (member "dir/a" 512 1000)
              [member "dir/b" 1536 1600; member "dir/a" 2048 2100]
              eq_refl eq_refl _).
    intros g Hg. by apply not_elem_of_nil in Hg.
  - apply (Hmissing "dir/a"). intros f Hf _.
    apply elem_of_cons in Hf as [->|Hf]; [discriminate|].
    apply elem_of_cons in Hf as [->|Hf]; [discriminate|].
    apply elem_of_cons in Hf as [->|Hf]; [discriminate|].
    by apply not_elem_of_nil in Hf.
Defined.

Lemma dir_ab_distinct :
  NoDup (relative "dir" <$> members_under "dir" (reader_files dir_ab)).
Proof.
  change (NoDup ["a"; "b"]).
  apply NoDup_cons. split.
  - intros Hin. apply elem_of_cons in Hin as [Heq|Hin]; [discriminate|].
    by apply not_elem_of_nil in Hin.
  - apply NoDup_cons. split; [apply not_elem_of_nil | apply NoDup_nil_2].
Defined.

Lemma tar_index_distinct_paths_witness :
  TarIndex_prefix (reader_path dir_ab) (Some "a") (reader_files dir_ab)
  = Ok "dir"
  /\ NoDup (relative "dir" <$> members_under "dir" (reader_files dir_ab))
  /\ exists t,
       TarIndex_new dir_ab (Some "a") = Ok t
       /\ (forall f, f ∈ reader_files dir_ab -> under "dir" f ->
                     TarIndex_file t (relative "dir" f)
                     = Ok {| fd := 3; start := file_start f;
                             end_ := file_end f |})
       /\ size (index_ t) = 2.
Proof.
  split; [reflexivity|]. split; [exact dir_ab_distinct|].
  exact (tar_index_distinct_paths dir_ab (Some "a") "dir" eq_refl
           dir_ab_distinct).
Defined.

Lemma tar_index_size_bound_witness :
  TarIndex_prefix (reader_path dir_aba) None (reader_files dir_aba) = Ok ""
  /\ exists t,
       TarIndex_new dir_aba None = Ok t
       /\ size (index_ t) <= 3
       /\ length (members_under "" (reader_files dir_aba)) <= 3
       /\ (index_ t = ∅ <-> members_under "" (reader_files dir_aba) = []).
Proof.
  split; [reflexivity|].
  exact (tar_index_size_bound dir_aba None "" eq_refl).
Defined.

Lemma tar_index_order_independent_witness :
  let swapped :=
    {| reader_path := "x.tar";
       reader_files := [member "dir/b" 1536 1600; member "dir/a" 512 1000];
       reader_filedes := 3 |} in
  reader_files dir_ab ≡ₚ reader_files swapped
  /\ TarIndex_new swapped (Some "a") = TarIndex_new dir_ab (Some "a").
Proof.
  intros swapped.
  assert (reader_files dir_ab ≡ₚ reader_files swapped) as Hperm
    by apply perm_swap.
  split; [exact Hperm|].
  exact (tar_index_order_independent dir_ab swapped (Some "a") "dir"
           eq_refl eq_refl Hperm eq_refl eq_refl dir_ab_distinct).
Defined.

(** With a repeated path the order does matter: the first occurrence
    decides which byte range is kept. *)
Example tar_index_order_matters_with_duplicates :
  (fun t => index_ t !! "dir/a")
    <$> opt_of (TarIndex_new
                  {| reader_path := "x.tar";
                     reader_files := [member "dir/a" 2048 2100;
                                      member "dir/b" 1536 1600;
                                      member "dir/a" 512 1000];
                     reader_filedes := 3 |} None)
  = Some (Some {| fd := 3; start := 2048; end_ := 2100 |})
  /\ (fun t => index_ t !! "dir/a") <$> opt_of (TarIndex_new dir_aba None)
     = Some (Some {| fd := 3; start := 512; end_ := 1000 |}).
Proof. split; vm_compute; reflexivity. Qed.

Lemma tar_stream_size_wraps_witness :
  TarIStream_size
    (TarIStream_new "empty" {| fd := 3; start := 1024; end_ := 1024 |})
  = Some 0%Z
  /\ TarIStream_size
       (TarIStream_new "bad" {| fd := 3; start := 1024; end_ := 1000 |})
     = Some 18446744073709551592%Z.
Proof.
  split.
  - apply (tar_stream_size_wraps "empty"
             {| fd := 3; start := 1024; end_ := 1024 |});
      simpl; (lia || reflexivity).
  - apply (tar_stream_size_wraps "bad"
             {| fd := 3; start := 1024; end_ := 1000 |}); simpl; lia.
Defined.

(** * Further properties of the hint matcher *)

Section MatcherScan.
Context `{PL : PathLib}.

Lemma Matcher_call_hint (m : Matcher) (p : string) :
  m_hint_ (fst (Matcher_call m p)) = m_hint_ m.
Proof.
  unfold Matcher_call. simpl.
  by destruct (Matcher_loop (m_hint_ m) (filename p) 0 (bestIndex_ m)).
Qed.

Lemma Matcher_feed_hint (m : Matcher) (paths : list string) :
  m_hint_ (Matcher_feed m paths) = m_hint_ m.
Proof.
  induction paths as [|p paths IH] using rev_ind; [done|].
  by rewrite Matcher_feed_snoc, Matcher_call_hint.
Qed.

Lemma Matcher_call_done (m : Matcher) (p : string) :
  bestIndex_ m = 0 -> Matcher_call m p = (m, true).
Proof. intros H0. unfold Matcher_call. rewrite H0. simpl. by rewrite H0. Qed.

Lemma Matcher_feed_done (m : Matcher) (paths : list string) :
  bestIndex_ m = 0 -> Matcher_feed m paths = m.
Proof.
  intros H0. induction paths as [|p paths IH] using rev_ind; [done|].
  by rewrite Matcher_feed_snoc, IH, Matcher_call_done.
Qed.

(** After any calls no candidate below [bestIndex] is the file name of an
    observed path. *)
Lemma Matcher_feed_least (m0 : Matcher) (paths : list string) (p : string)
    (i : nat) :
  p ∈ paths ->
  m_hint_ m0 !! i = Some (filename p) ->
  bestIndex_ (Matcher_feed m0 paths) <= i.
Proof.
  induction paths as [|q paths IH] using rev_ind; intros Hin Hi.
  - by apply not_elem_of_nil in Hin.
  - rewrite Matcher_feed_snoc.
    pose proof (Matcher_feed_hint m0 paths) as Hh.
    set (m := Matcher_feed m0 paths) in *.
    unfold Matcher_call. simpl.
    destruct (Matcher_loop (m_hint_ m) (filename q) 0 (bestIndex_ m))
      as [j|] eqn:E; simpl.
    + apply Matcher_loop_Some in E as (Hr & Hj & Hbelow).
      apply elem_of_app in Hin as [Hin|Hin].
      * specialize (IH Hin Hi). lia.
      * apply list_elem_of_singleton in Hin as ->.
        destruct (decide (j <= i)) as [|Hlt]; [done|]. exfalso.
        apply (Hbelow i); [lia|]. by rewrite Hh.
    + apply elem_of_app in Hin as [Hin|Hin]; [by apply IH|].
      apply list_elem_of_singleton in Hin as ->.
      destruct (decide (bestIndex_ m <= i)) as [|Hlt]; [done|]. exfalso.
      apply (proj1 (Matcher_loop_None _ _ _ _) E i); [lia|]. by rewrite Hh.
Qed.


(** X8.  When something has matched, [bestMatch] is the first observed path
    that has the candidate at [bestIndex] as its file name: no earlier path
    of the sequence has that file name. *)
Theorem matcher_best_match_first (m0 : Matcher) (paths : list string) :
  bestIndex_ m0 = length (m_hint_ m0) ->
  let m := Matcher_feed m0 paths in
  bestIndex_ m < length (m_hint_ m0) ->
  exists before after,
    paths = before ++ bestMatch_ m :: after
    /\ m_hint_ m0 !! bestIndex_ m = Some (filename (bestMatch_ m))
    /\ forall q, q ∈ before -> filename q <> filename (bestMatch_ m).
Proof.
  intros Hinit. cbv zeta.
  induction paths as [|p paths IH] using rev_ind.
  - simpl. lia.
  - rewrite Matcher_feed_snoc.
    pose proof (Matcher_feed_hint m0 paths) as Hh.
    pose proof (Matcher_feed_least m0 paths) as Hleast.
    set (m := Matcher_feed m0 paths) in *.
    unfold Matcher_call. simpl.
    destruct (Matcher_loop (m_hint_ m) (filename p) 0 (bestIndex_ m))
      as [j|] eqn:E; simpl.
    + intros _. apply Matcher_loop_Some in E as (Hr & Hj & _).
      exists paths, []. split_and!; [done|by rewrite <- Hh|].
      intros q Hq Hsame.
      assert (bestIndex_ m <= j); [|lia].
      apply (Hleast q j Hq). rewrite Hsame. by rewrite <- Hh.
    + intros Hlt. destruct (IH Hlt) as (before & after & Hp & Hc & Hfirst).
      exists before, (after ++ [p]). split_and!; [|done|done].
      rewrite Hp at 1. by rewrite <- app_assoc.
Qed.

(** X9.  Once a call has returned [true], nothing that is observed later
    changes the matcher, and every later call returns [true] again: a scan
    that stops at the first [true] ends in the same state as a scan of the
    whole sequence.  This holds as well for an empty candidate list, where
    the first call returns [true] although nothing has matched. *)
Theorem matcher_stop_is_final (m0 : Matcher) (before after : list string)
    (p : string) :
  snd (Matcher_call (Matcher_feed m0 before) p) = true ->
  Matcher_feed m0 (before ++ p :: after) = Matcher_feed m0 (before ++ [p])
  /\ forall q,
       Matcher_call (Matcher_feed m0 (before ++ [p])) q
       = (Matcher_feed m0 (before ++ [p]), true).
Proof.
  intros Hstop.
  assert (bestIndex_ (Matcher_feed m0 (before ++ [p])) = 0) as H0.
  { rewrite Matcher_feed_snoc. unfold Matcher_call in *. simpl in *.
    by apply Nat.eqb_eq. }
  split.
  - replace (before ++ p :: after) with ((before ++ [p]) ++ after)
      by (by rewrite <- app_assoc).
    unfold Matcher_feed at 1. rewrite foldl_app.
    by apply Matcher_feed_done.
  - intros q. by apply Matcher_call_done.
Qed.

(** X10.  The index reached does not depend on the order in which the paths
    are observed, nor on repetitions: two sequences with the same paths
    leave the same [bestIndex] (the path kept as [bestMatch] may differ). *)
Theorem matcher_index_order_independent (m0 : Matcher)
    (paths paths' : list string) :
  bestIndex_ m0 = length (m_hint_ m0) ->
  (forall p, p ∈ paths <-> p ∈ paths') ->
  bestIndex_ (Matcher_feed m0 paths) = bestIndex_ (Matcher_feed m0 paths').
Proof.
  intros Hinit Hsame.
  assert (forall l l' : list string,
            (forall p, p ∈ l -> p ∈ l') ->
            bestIndex_ (Matcher_feed m0 l') <= bestIndex_ (Matcher_feed m0 l))
    as Hle.
  { intros l l' Hsub.
    destruct (Matcher_feed_invariant m0 l Hinit) as (_ & Hbound & Hbest).
    destruct (Matcher_feed_invariant m0 l' Hinit) as (_ & Hbound' & _).
    destruct (decide (bestIndex_ (Matcher_feed m0 l) < length (m_hint_ m0)))
      as [Hlt|Hge]; [|lia].
    destruct (Hbest Hlt) as [Hin Hc].
    apply (Matcher_feed_least m0 l' (bestMatch_ (Matcher_feed m0 l)));
      [by apply Hsub | done]. }
  apply Nat.le_antisymm; apply Hle; intros p; apply Hsame.
Qed.

End MatcherScan.


Lemma matcher_best_match_first_witness :
  let m0 := Matcher_new {| hint_ := ["config.json"; "CONFIG.JSON"] |} in
  let paths := ["a/CONFIG.JSON"; "b/CONFIG.JSON"; "c/readme.txt"] in
  bestIndex_ m0 = length (m_hint_ m0)
  /\ bestIndex_ (Matcher_feed m0 paths) < length (m_hint_ m0)
  /\ bestMatch_ (Matcher_feed m0 paths) = "a/CONFIG.JSON"
  /\ exists before after,
       paths = before ++ bestMatch_ (Matcher_feed m0 paths) :: after
       /\ m_hint_ m0 !! bestIndex_ (Matcher_feed m0 paths)
          = Some (filename (bestMatch_ (Matcher_feed m0 paths)))
       /\ forall q, q ∈ before ->
                    filename q <> filename (bestMatch_ (Matcher_feed m0 paths)).
Proof.
  intros m0 paths.
  assert (bestIndex_ m0 = length (m_hint_ m0)) as Hinit by reflexivity.
  assert (bestIndex_ (Matcher_feed m0 paths) < length (m_hint_ m0)) as Hlt
    by (vm_compute; lia).
  split; [exact Hinit|]. split; [exact Hlt|]. split; [reflexivity|].
  exact (matcher_best_match_first m0 paths Hinit Hlt).
Defined.

Lemma matcher_stop_is_final_witness :
  let m0 := Matcher_new {| hint_ := ["config.json"; "CONFIG.JSON"] |} in
  snd (Matcher_call (Matcher_feed m0 ["top/CONFIG.JSON"]) "sub/config.json")
  = true
  /\ Matcher_feed m0 (["top/CONFIG.JSON"] ++ "sub/config.json"
                       :: ["x/config.json"; "y/CONFIG.JSON"])
     = Matcher_feed m0 (["top/CONFIG.JSON"] ++ ["sub/config.json"])
  /\ Matcher_call (Matcher_new {| hint_ := [] |}) "any/file"
     = (Matcher_new {| hint_ := [] |}, true).
Proof.
  intros m0.
  assert (snd (Matcher_call (Matcher_feed m0 ["top/CONFIG.JSON"])
                 "sub/config.json") = true) as Hstop by reflexivity.
  split; [exact Hstop|]. split; [|reflexivity].
  exact (proj1 (matcher_stop_is_final m0 ["top/CONFIG.JSON"]
                  ["x/config.json"; "y/CONFIG.JSON"] "sub/config.json"
                  Hstop)).
Defined.

Lemma matcher_index_order_independent_witness :
  let m0 := Matcher_new {| hint_ := ["config.json"; "CONFIG.JSON"] |} in
  bestIndex_ m0 = length (m_hint_ m0)
  /\ bestIndex_ (Matcher_feed m0 ["top/CONFIG.JSON"; "sub/config.json"])
     = bestIndex_ (Matcher_feed m0 ["sub/config.json"; "top/CONFIG.JSON";
                                    "sub/config.json"]).
Proof.
  intros m0.
  assert (bestIndex_ m0 = length (m_hint_ m0)) as Hinit by reflexivity.
  split; [exact Hinit|].
  apply (matcher_index_order_independent m0 _ _ Hinit).
  intros p. rewrite !elem_of_cons. tauto.
Defined.

(** * Further properties of the whole content read *)



(** X13.  Reading a second time.  After [read] has returned the content of
    a freshly opened member, a second [read] on the same stream returns the
    content again when the size is unknown and the stream seekable, returns
    nothing when the size is unknown and the stream not seekable, and
    throws when the size is known and the member not empty. *)
Theorem read_twice (bytes : list Byte.byte) (size : option nat)
    (seekable : bool) :
  (forall n, size = Some n -> n = length bytes) ->
  exists s1,
    IStream_read (IStream_open bytes size seekable) = Ok (bytes, s1)
    /\ match size with
       | Some n =>
           if decide (bytes = [])
           then fst <$> opt_of (IStream_read s1) = Some []
           else exists what, IStream_read s1 = Throw (ios_failure what)
       | None =>
           fst <$> opt_of (IStream_read s1)
           = Some (if seekable then bytes else [])
       end.
Proof.
  intros Hsize. unfold IStream_open.
  destruct size as [n|].
  - pose proof (Hsize n eq_refl) as ->.
    eexists. split.
    + unfold IStream_read. simpl. by apply binaryio_read_all.
    + unfold IStream_read, binaryio_read. simpl.
      destruct (decide (bytes = [])) as [->|Hne]; [done|].
      destruct (Nat.leb_spec (length bytes + length bytes) (length bytes))
        as [Hle|_]; [|by eexists].
      destruct bytes; [done|simpl in Hle; lia].
  - destruct seekable.
    + eexists. split.
      * unfold IStream_read. simpl.
        unfold tellg, seekg_end, seekg, with_stream. simpl.
        by apply binaryio_read_all.
      * unfold IStream_read. simpl.
        unfold tellg, seekg_end, seekg, with_stream. simpl.
        by rewrite binaryio_read_all.
    + eexists. split; [done|].
      unfold IStream_read, bio_copy. simpl. by rewrite drop_all.
Qed.

(** X14.  [copy] and [read] agree: on a freshly opened member whose size,
    when known, is exact, [copy] appends to the output exactly the bytes
    that [read] returns, whatever the strategy of [read]; and [read] leaves
    the stream at its end, so that a [copy] after it appends nothing. *)
Theorem copy_agrees_with_read (bytes : list Byte.byte) (size : option nat)
    (seekable : bool) (out : list Byte.byte) :
  (forall n, size = Some n -> n = length bytes) ->
  exists buf s1,
    IStream_read (IStream_open bytes size seekable) = Ok (buf, s1)
    /\ snd (copy (IStream_open bytes size seekable) out) = out ++ buf
    /\ snd (copy s1 out) = out.
Proof.
  intros Hsize. exists bytes.
  assert (exists s1,
            IStream_read (IStream_open bytes size seekable) = Ok (bytes, s1)
            /\ gpos s1 = length bytes /\ source s1 = bytes)
    as (s1 & Hread & Hpos & Hsrc).
  { unfold IStream_read, IStream_open. simpl. destruct size as [n|].
    - rewrite binaryio_read_all by auto.
      eexists. split; [done|]. simpl. split; [|done].
      by apply Hsize.
    - destruct seekable.
      + unfold tellg, seekg_end, seekg, with_stream. simpl.
        rewrite binaryio_read_all by done. by eexists.
      + unfold bio_copy. simpl. by eexists. }
  exists s1. split_and!; [done|done|].
  unfold copy, bio_copy. simpl.
  by rewrite Hpos, Hsrc, drop_all, app_nil_r.
Qed.



Lemma read_twice_witness :
  (forall n, Some 2 = Some n -> n = length [Byte.x61; Byte.x62])
  /\ exists s1,
       IStream_read (IStream_open [Byte.x61; Byte.x62] (Some 2) true)
       = Ok ([Byte.x61; Byte.x62], s1)
       /\ exists what, IStream_read s1 = Throw (ios_failure what).
Proof.
  assert (forall n, Some 2 = Some n -> n = length [Byte.x61; Byte.x62])
    as Hsize by (intros n [= <-]; reflexivity).
  split; [exact Hsize|].
  exact (read_twice [Byte.x61; Byte.x62] (Some 2) true Hsize).
Defined.

Lemma copy_agrees_with_read_witness :
  (forall n, None = Some n -> n = length [Byte.x61; Byte.x62])
  /\ exists buf s1,
       IStream_read (IStream_open [Byte.x61; Byte.x62] None true)
       = Ok (buf, s1)
       /\ snd (copy (IStream_open [Byte.x61; Byte.x62] None true) [Byte.x30])
          = [Byte.x30] ++ buf
       /\ snd (copy s1 [Byte.x30]) = [Byte.x30].
Proof.
  assert (forall n, @None nat = Some n -> n = length [Byte.x61; Byte.x62])
    as Hsize by (intros n Hn; discriminate Hn).
  split; [exact Hsize|].
  exact (copy_agrees_with_read [Byte.x61; Byte.x62] None true [Byte.x30]
           Hsize).
Defined.

(** * Further properties of the factory *)

Lemma string_length_app (a b : string) :
  String.length (a +:+ b) = String.length a + String.length b.
Proof. induction a as [|c a IH]; simpl; [done|]. by rewrite IH. Qed.

Lemma split_inline_hint_mime (path : string) (opts : OpenOptions) :
  mime (snd (split_inline_hint path opts)) = mime opts.
Proof.
  unfold split_inline_hint.
  destruct (negb _); [|done].
  by destruct (string_find path (inlineHint opts)).
Qed.

(** X15.  The inline hint block leaves the path and the options exactly as
    they were if and only if no marker is configured or the marker does not
    occur in the path. *)
Theorem inline_hint_untouched_iff (path : string) (opts : OpenOptions) :
  split_inline_hint path opts = (path, opts) <->
  inlineHint opts = Ascii.zero
  \/ ~ In (inlineHint opts) (list_ascii_of_string path).
Proof.
  split.
  - intros Hsame.
    destruct (Ascii.eqb_spec (inlineHint opts) Ascii.zero) as [Hz|Hnz];
      [by left|]. right. intros Hin.
    destruct (string_find_occurs _ _ Hin) as [n Hn].
    destruct (string_find_Some _ _ _ Hn)
      as (real & suffix & Hpath & _ & _ & Hpre & _).
    unfold split_inline_hint in Hsame.
    apply Ascii.eqb_neq in Hnz. rewrite Hnz, Hn in Hsame. simpl in Hsame.
    injection Hsame as Hreal _. rewrite Hpre in Hreal.
    apply (f_equal String.length) in Hpath.
    rewrite string_length_app, Hreal in Hpath. simpl in Hpath. lia.
  - intros [Hz|Hnot].
    + unfold split_inline_hint. by rewrite Hz.
    + by apply split_inline_hint_absent.
Qed.

Section FactoryTypes.
Context `{PL : PathLib} `{TL : TarLib} `{HO : Host}.

(** X16.  An explicit type in the options is the resolved type, whatever
    the URI parser and the content sniffer would answer and whether or not
    an inline hint was split off: the factory dispatches on it with the
    real path and the options left by the inline hint block. *)
Theorem explicit_type_wins (path : string) (opts : OpenOptions) :
  mime opts <> "" ->
  resolved_type path opts = Ok (mime opts)
  /\ factory path opts
     = dispatch (mime opts) (fst (split_inline_hint path opts))
         (snd (split_inline_hint path opts)).
Proof.
  intros Hmime.
  assert (resolved_type path opts = Ok (mime opts)
          /\ detect_url (fst (split_inline_hint path opts))
               (snd (split_inline_hint path opts))
             = snd (split_inline_hint path opts)) as [Hres Hurl].
  { unfold resolved_type.
    pose proof (split_inline_hint_mime path opts) as Hm.
    destruct (split_inline_hint path opts) as [real o]. simpl in *.
    apply String.eqb_neq in Hmime.
    unfold detect_magic, detect_url. by rewrite !Hm, !Hmime, ?Hm, ?Hmime. }
  split; [done|]. by rewrite factory_resolved, Hres, Hurl.
Qed.

(** X17.  With no explicit type, a path that parses as a URI with scheme
    [http] or [https] is resolved to the type [http] without the content
    sniffer being asked; the http backend is then constructed on the real
    path with the type [http] written into the options, or, in a build
    without HTTP support, the open fails with [NotAnArchive] carrying
    [http]. *)
Theorem url_resolves_to_http (path : string) (opts : OpenOptions)
    (scheme : string) :
  mime opts = "" ->
  Uri_scheme (fst (split_inline_hint path opts)) = Ok scheme ->
  scheme = "http" \/ scheme = "https" ->
  resolved_type path opts = Ok "http"
  /\ factory path opts
     = if ROARCHIVE_HAS_HTTP
       then http (fst (split_inline_hint path opts))
              (setMime (snd (split_inline_hint path opts)) "http")
       else Throw (NotAnArchive "Unsupported archive type <http>.").
Proof.
  intros Hmime Huri Hscheme.
  pose proof (split_inline_hint_mime path opts) as Hm.
  assert (detect_url (fst (split_inline_hint path opts))
            (snd (split_inline_hint path opts))
          = setMime (snd (split_inline_hint path opts)) "http") as Hurl.
  { unfold detect_url. rewrite Hm, Hmime, Huri. simpl.
    by destruct Hscheme as [-> | ->]. }
  assert (resolved_type path opts = Ok "http") as Hres.
  { unfold resolved_type.
    destruct (split_inline_hint path opts) as [real o]. simpl in *.
    by rewrite Hurl. }
  split; [done|]. rewrite factory_resolved, Hres, Hurl. simpl.
  unfold dispatch. simpl. by destruct ROARCHIVE_HAS_HTTP.
Qed.

(** X18.  With no explicit type, a path that does not parse as a URI, or
    whose scheme is neither [http] nor [https], has its type sniffed from
    the real path: a failure of the URI parser is swallowed, while a
    failure of the sniffer comes out of the factory and of the archive
    constructor unchanged. *)
Theorem type_sniffed_when_not_url (path : string) (opts : OpenOptions) :
  mime opts = "" ->
  (forall scheme,
     Uri_scheme (fst (split_inline_hint path opts)) = Ok scheme ->
     scheme <> "http" /\ scheme <> "https") ->
  resolved_type path opts = Magic_mime (fst (split_inline_hint path opts))
  /\ factory path opts
     = (try! magic <- Magic_mime (fst (split_inline_hint path opts));
        dispatch magic (fst (split_inline_hint path opts))
          (snd (split_inline_hint path opts)))
  /\ (forall e,
        Magic_mime (fst (split_inline_hint path opts)) = Throw e ->
        factory path opts = Throw e /\ RoArchive_new path opts = Throw e).
Proof.
  intros Hmime Hnot.
  pose proof (split_inline_hint_mime path opts) as Hm.
  assert (detect_url (fst (split_inline_hint path opts))
            (snd (split_inline_hint path opts))
          = snd (split_inline_hint path opts)) as Hurl.
  { unfold detect_url. rewrite Hm, Hmime. simpl.
    destruct (Uri_scheme (fst (split_inline_hint path opts)))
      as [scheme|e] eqn:E; [|done].
    destruct (Hnot scheme eq_refl) as [Hh Hs].
    apply String.eqb_neq in Hh, Hs. by rewrite Hh, Hs. }
  assert (resolved_type path opts
          = Magic_mime (fst (split_inline_hint path opts))) as Hres.
  { unfold resolved_type.
    destruct (split_inline_hint path opts) as [real o]. simpl in *.
    rewrite Hurl. unfold detect_magic. by rewrite Hm, Hmime. }
  assert (factory path opts
          = (try! magic <- Magic_mime (fst (split_inline_hint path opts));
             dispatch magic (fst (split_inline_hint path opts))
               (snd (split_inline_hint path opts)))) as Hf
    by (by rewrite factory_resolved, Hres, Hurl).
  split_and!; [done|done|].
  intros e He. rewrite He in Hf. simpl in Hf.
  split; [done|]. unfold RoArchive_new. by rewrite Hf.
Qed.

End FactoryTypes.

Lemma inline_hint_untouched_iff_witness :
  split_inline_hint "archive.tar#inner" default_options
  = ("archive.tar#inner", default_options)
  /\ (split_inline_hint "archive.tar#inner" default_options
      = ("archive.tar#inner", default_options) <->
      inlineHint default_options = Ascii.zero
      \/ ~ In (inlineHint default_options)
              (list_ascii_of_string "archive.tar#inner")).
Proof.
  split; [reflexivity|].
  exact (inline_hint_untouched_iff "archive.tar#inner" default_options).
Defined.

Lemma explicit_type_wins_witness :
  let opts := setMime default_options "application/zip" in
  mime opts <> ""
  /\ @resolved_type (url_host "https" true) "https://host/a.zip" opts
     = Ok "application/zip"
  /\ @factory relative_paths (fixed_tar []) (url_host "https" true)
       "https://host/a.zip" opts
     = Throw (runtime_error "no zip backend").
Proof.
  intros opts.
  assert (mime opts <> "") as Hmime by discriminate.
  split; [exact Hmime|].
  exact (@explicit_type_wins relative_paths (fixed_tar [])
           (url_host "https" true) "https://host/a.zip" opts Hmime).
Defined.

Lemma url_resolves_to_http_witness :
  mime default_options = ""
  /\ @resolved_type (url_host "https" false) "https://host/a" default_options
     = Ok "http"
  /\ @factory relative_paths (fixed_tar []) (url_host "https" false)
       "https://host/a" default_options
     = Throw (NotAnArchive "Unsupported archive type <http>.")
  /\ @factory relative_paths (fixed_tar []) (url_host "http" true)
       "http://host/a" default_options
     = Throw (runtime_error "cannot connect").
Proof.
  split; [reflexivity|].
  destruct (@url_resolves_to_http relative_paths (fixed_tar [])
              (url_host "https" false) "https://host/a" default_options
              "https" eq_refl eq_refl (or_intror eq_refl)) as [Hres Hf].
  split; [exact Hres|]. split; [exact Hf|].
  exact (proj2 (@url_resolves_to_http relative_paths (fixed_tar [])
                  (url_host "http" true) "http://host/a" default_options
                  "http" eq_refl eq_refl (or_introl eq_refl))).
Defined.

Lemma type_sniffed_when_not_url_witness :
  mime default_options = ""
  /\ (forall scheme,
        @Uri_scheme (url_host "ftp" true)
          (fst (split_inline_hint "ftp://host/a" default_options)) = Ok scheme ->
        scheme <> "http" /\ scheme <> "https")
  /\ @RoArchive_new relative_paths (fixed_tar []) (url_host "ftp" true)
       "ftp://host/a" default_options
     = Throw (runtime_error "cannot open")
  /\ @factory relative_paths (fixed_tar []) (fixed_host "application/x-tar")
       "x.tar" default_options
     = @dispatch relative_paths (fixed_tar []) (fixed_host "application/x-tar")
         "application/x-tar" "x.tar" default_options.
Proof.
  assert (forall scheme,
            @Uri_scheme (url_host "ftp" true)
              (fst (split_inline_hint "ftp://host/a" default_options))
            = Ok scheme ->
            scheme <> "http" /\ scheme <> "https") as Hnot.
  { intros scheme [= <-]. split; discriminate. }
  split; [reflexivity|]. split; [exact Hnot|]. split.
  - destruct (@type_sniffed_when_not_url relative_paths (fixed_tar [])
                (url_host "ftp" true) "ftp://host/a" default_options
                eq_refl Hnot) as (_ & _ & Hthrow).
    exact (proj2 (Hthrow (runtime_error "cannot open") eq_refl)).
  - reflexivity.
Defined.
